(** * The Consumer Runner of kafkajs (src/consumer/runner.js)

    A shallow embedding of the [Runner] class: its two flags, the calls it
    makes to the group collaborator, the user handlers, the instrumentation
    emitter and the crash handler, followed by the properties of the
    natural-language specification.

    The Runner is asynchronous JavaScript.  A method is modelled as a
    computation in a small monad that threads the mutable state, collects the
    observable calls in the order in which they are issued, and ends with a
    value, a thrown error, or still suspended.  Every [await] on the outside
    world is a suspension point: the answer it receives, and what other tasks
    wrote to the shared state meanwhile, is read from a script carried by the
    state, so that a statement quantified over all states covers all
    behaviours of the broker and all interleavings at suspension points.
    The logger, the instrumentation emitter and the crash handler are
    callbacks that return: a call of one of them is an event and nothing
    more. *)

From stdpp Require Import gmap strings list pretty.
From Stdlib Require Import ZArith Lia Sorted.

Set Default Proof Using "Type*".

(** ** Data model *)

Abbreviation Topic := string (only parsing).
Abbreviation Partition := Z (only parsing).
Abbreviation Offset := Z (only parsing).

(** A JavaScript error as the Runner looks at it: [e.name], [e.type],
    [e.message] and whether [e instanceof KafkaJSError]. *)
Record Error := mkError {
  errName : string;
  errType : string;
  errMessage : string;
  errIsKafkaJS : bool;
}.

Record Message := mkMessage {
  offset : Offset;
  key : string;
  value : string;
}.

Record Batch := mkBatch {
  topic : Topic;
  partition : Partition;
  highWatermark : Offset;
  messages : list Message;
}.

(** Modelled from the spec: the derived attributes of [Batch]
    (consumer/batch.js is not part of the sources).  The spec names
    [isEmpty], [firstOffset], [lastOffset] and [offsetLag] as derived from
    the ordered message sequence; the Runner only calls [lastOffset] and
    [firstOffset] on batches that passed the [isEmpty] test. *)
Definition isEmpty (b : Batch) : bool :=
  match messages b with [] => true | _ => false end.

(** Modelled from the spec: [firstOffset], the offset of the first
    message. *)
Definition firstOffset (b : Batch) : option Offset :=
  offset <$> head (messages b).

(** Modelled from the spec: [lastOffset], the offset of the last message (of
    an empty batch, the offset before the high watermark). *)
Definition lastOffset (b : Batch) : Offset :=
  List.last (offset <$> messages b) (highWatermark b - 1)%Z.

(** Modelled from the spec: [offsetLag], how far the last offset is from the
    high watermark. *)
Definition offsetLag (b : Batch) : Offset :=
  (highWatermark b - 1 - lastOffset b)%Z.

(** What another task of the same consumer may write to the state shared with
    the Runner while a Runner method is suspended: [stop] clears [running] and
    a successful [join] sets it, the fetch loop flips [consuming], and
    [consumer.seek] leaves a seek override on the group. *)
Inductive Interference :=
| IRunning (b : bool)
| IConsuming (b : bool)
| ISeek (t : Topic) (p : Partition) (o : Offset).

(** The outcome of one suspension: the interference that happened meanwhile,
    whether the awaited call rejected, and the payload of the answer (the
    batches of a fetch, the member id handed out by a join, and whether the
    commit thresholds of [commitOffsetsIfNecessary] were met). *)
Record Response := mkResponse {
  r_during : list Interference;
  r_failure : option Error;
  r_batches : list Batch;
  r_memberId : string;
  r_due : bool;
}.

Definition quiet : Response := mkResponse [] None [] "" false.

(** Modelled from the spec: the offset cursor and the member id owned by the
    ConsumerGroup collaborator (consumer/consumerGroup.js is not part of the
    sources).  Per (topic, partition): the last resolved offset, the
    committed offset (the next offset to consume, as in the scenario "two
    messages each, final committed offsets 2") and the optional seek
    override. *)
Record ConsumerGroup := mkGroup {
  memberId : option string;
  resolved : gmap (string * Z) Z;
  committed : gmap (string * Z) Z;
  seekOffset : gmap (string * Z) Z;
}.

Inductive LogLevel := Debug | Info | LError.

(** The payload of the batch events, lines 226-234, without the duration. *)
Record BatchPayload := mkPayload {
  p_topic : Topic;
  p_partition : Partition;
  p_highWatermark : Offset;
  p_offsetLag : Offset;
  p_batchSize : nat;
  p_firstOffset : option Offset;
  p_lastOffset : Offset;
}.

Definition batchPayload (b : Batch) : BatchPayload :=
  mkPayload (topic b) (partition b) (highWatermark b) (offsetLag b)
    (length (messages b)) (firstOffset b) (lastOffset b).

(** The events of the instrumentation emitter, with the member id of the
    GROUP_JOIN payload and the number of batches of the FETCH payload. *)
Inductive InstrumentationEvent :=
| GROUP_JOIN (member : option string)
| FETCH (numberOfBatches : nat)
| START_BATCH_PROCESS (payload : BatchPayload)
| END_BATCH_PROCESS (payload : BatchPayload).

(** The places where the source assigns [this.running]. *)
Inductive Site := InJoin | InStart | InStop.

(** The observable actions of the Runner, recorded when they are issued. *)
Inductive Event :=
| EvJoin
| EvSync
| EvLeave
| EvFetch
| EvHeartbeat (interval : Z)
| EvCommitOffsets (offsets : option (list (string * Z * Z)))
| EvCommitOffsetsIfNecessary
| EvResolveOffset (t : Topic) (p : Partition) (o : Offset)
| EvEmit (ev : InstrumentationEvent)
| EvLog (lvl : LogLevel) (msg : string)
| EvEachMessage (t : Topic) (p : Partition) (o : Offset)
| EvEachBatch (t : Topic) (p : Partition)
| EvOnCrash (e : Error)
| EvTimeout (ms : Z)
| EvBackoff (retryCount : nat)
| EvSetImmediate
| EvBail (e : Error)
| EvMemberIdNull
| EvRunning (site : Site) (old new : bool)
| EvConsuming (b : bool).

(** The mutable state: the two flags of the Runner, the collaborator, and the
    script of the answers still to come. *)
Record World := mkWorld {
  running : bool;
  consuming : bool;
  group : ConsumerGroup;
  script : list Response;
}.

Definition set_running (b : bool) (w : World) : World :=
  mkWorld b (consuming w) (group w) (script w).
Definition set_consuming (b : bool) (w : World) : World :=
  mkWorld (running w) b (group w) (script w).
Definition set_group (g : ConsumerGroup) (w : World) : World :=
  mkWorld (running w) (consuming w) g (script w).
Definition set_script (s : list Response) (w : World) : World :=
  mkWorld (running w) (consuming w) (group w) s.

Definition set_memberId (m : option string) (g : ConsumerGroup)
  : ConsumerGroup :=
  mkGroup m (resolved g) (committed g) (seekOffset g).
Definition set_resolved (r : gmap (string * Z) Z) (g : ConsumerGroup)
  : ConsumerGroup :=
  mkGroup (memberId g) r (committed g) (seekOffset g).
Definition set_committed (c : gmap (string * Z) Z) (g : ConsumerGroup)
  : ConsumerGroup :=
  mkGroup (memberId g) (resolved g) c (seekOffset g).
Definition set_seekOffset (s : gmap (string * Z) Z) (g : ConsumerGroup)
  : ConsumerGroup :=
  mkGroup (memberId g) (resolved g) (committed g) s.

Definition interfere1 (w : World) (i : Interference) : World :=
  match i with
  | IRunning b => set_running b w
  | IConsuming b => set_consuming b w
  | ISeek t p o =>
      set_group
        (set_seekOffset (<[(t, p) := o]> (seekOffset (group w))) (group w)) w
  end.

Definition interfere (acts : list Interference) (w : World) : World :=
  fold_left interfere1 acts w.

(** ** The monad of Runner computations *)

Inductive Res (A : Type) :=
| Val (a : A)
| Exn (e : Error)
| Pending.
Arguments Val {A} a.
Arguments Exn {A} e.
Arguments Pending {A}.

Definition M (A : Type) : Type := World -> Res A * World * list Event.

Definition ret {A} (a : A) : M A := fun w => (Val a, w, []).
Definition throw {A} (e : Error) : M A := fun w => (Exn e, w, []).
Definition pending {A} : M A := fun w => (Pending, w, []).

Definition bind {A B} (m : M A) (k : A -> M B) : M B := fun w =>
  match m w with
  | (Val a, w1, t1) => let '(r, w2, t2) := k a w1 in (r, w2, t1 ++ t2)
  | (Exn e, w1, t1) => (Exn e, w1, t1)
  | (Pending, w1, t1) => (Pending, w1, t1)
  end.

Declare Scope runner_scope.
Delimit Scope runner_scope with runner.
Notation "x <- c1 ;; c2" := (bind c1 (fun x => c2))
  (at level 100, c1 at next level, right associativity) : runner_scope.
Notation "c1 ;; c2" := (bind c1 (fun _ => c2))
  (at level 100, right associativity) : runner_scope.
Local Open Scope runner_scope.

(** [try { m } catch (e) { h e }] *)
Definition try_catch {A} (m : M A) (h : Error -> M A) : M A := fun w =>
  match m w with
  | (Exn e, w1, t1) => let '(r, w2, t2) := h e w1 in (r, w2, t1 ++ t2)
  | other => other
  end.

Definition log (ev : Event) : M unit := fun w => (Val tt, w, [ev]).
Definition get {A} (f : World -> A) : M A := fun w => (Val (f w), w, []).
Definition modify (f : World -> World) : M unit := fun w => (Val tt, f w, []).

(** A suspension point: take the next answer of the script and let the
    interference that came with it happen.  When the script is used up the
    outside world is quiet: calls succeed and nobody interferes. *)
Definition suspend : M Response := fun w =>
  match script w with
  | [] => (Val quiet, w, [])
  | r :: rest => (Val r, interfere (r_during r) (set_script rest w), [])
  end.

(** The outcome of an awaited call: a suspension, and then the rejection or
    the answer. *)
Definition answer : M Response :=
  r <- suspend ;;
  match r_failure r with
  | Some e => throw e
  | None => ret r
  end.

(** An awaited call on the collaborator: issued, then awaited. *)
Definition rpc (ev : Event) : M Response := log ev ;; answer.

(** The result of a call as the caller of [await] inside [try] sees it. *)
Definition attempt {A} (m : M A) : M (option Error) :=
  try_catch (m ;; ret None) (fun e => ret (Some e)).

(** Turn the outcome of a computation that has settled into a value. *)
Definition reify {A} (m : M A) : M (Res A) := fun w =>
  match m w with
  | (Pending, w1, t1) => (Pending, w1, t1)
  | (r, w1, t1) => (Val r, w1, t1)
  end.

(** ** The group collaborator *)

(** The operations of the ConsumerGroup collaborator that the Runner
    consumes (section 6 of the spec; consumer/consumerGroup.js is not part of
    the sources).  [join], [sync], [leave], [fetch], [heartbeat],
    [commitOffsets] and [commitOffsetsIfNecessary] are awaited calls that may
    reject; [resolveOffset], [hasSeekOffset] and [uncommittedOffsets] are
    synchronous. *)
Definition modify_group (f : ConsumerGroup -> ConsumerGroup) : M unit :=
  modify (fun w => set_group (f (group w)) w).

(** Modelled from the spec: the member id is mutable, and clearing it
    triggers re-identification on re-join. *)
Definition identify (fresh : string) (g : ConsumerGroup) : ConsumerGroup :=
  match memberId g with
  | Some _ => g
  | None => set_memberId (Some fresh) g
  end.

(** Modelled from the spec: [join() -> void]. *)
Definition group_join : M unit :=
  r <- rpc EvJoin ;; modify_group (identify (r_memberId r)).

(** Modelled from the spec: [sync() -> void]. *)
Definition group_sync : M unit := rpc EvSync ;; ret tt.

(** Modelled from the spec: [leave() -> void]. *)
Definition group_leave : M unit := rpc EvLeave ;; ret tt.

(** Modelled from the spec: the answer to [fetch() -> Batch[]].  A seek
    invalidates the batches in flight; the fetch repositions the cursor, so
    no seek override is pending for the batches it returns. *)
Definition group_fetch_answer : M (list Batch) :=
  r <- answer ;;
  modify_group (set_seekOffset ∅) ;;
  ret (r_batches r).

(** Modelled from the spec: [fetch() -> Batch[]]. *)
Definition group_fetch : M (list Batch) := log EvFetch ;; group_fetch_answer.

(** Modelled from the spec: [heartbeat({interval}) -> void]; whether a
    heartbeat is sent or throttled is the collaborator's business. *)
Definition group_heartbeat (interval : Z) : M unit :=
  rpc (EvHeartbeat interval) ;; ret tt.

(** Modelled from the spec: committing the resolved offsets persists, per
    partition, the offset that follows the last resolved one. *)
Definition commit_resolved (g : ConsumerGroup) : ConsumerGroup :=
  set_committed ((Z.succ <$> resolved g) ∪ committed g) g.

(** Modelled from the spec: committing explicit offsets persists them as
    they are given. *)
Definition commit_explicit (offsets : list (string * Z * Z))
    (g : ConsumerGroup) : ConsumerGroup :=
  set_committed
    (foldr (fun '(t, p, o) m => <[(t, p) := o]> m) (committed g) offsets) g.

(** Modelled from the spec: [commitOffsets(offsets?) -> void]. *)
Definition group_commitOffsets (offsets : option (list (string * Z * Z)))
  : M unit :=
  rpc (EvCommitOffsets offsets) ;;
  modify_group (match offsets with
                | Some l => commit_explicit l
                | None => commit_resolved
                end).

(** Modelled from the spec: [commitOffsetsIfNecessary() -> void] commits
    only when the interval or count thresholds are met, which the answer
    tells. *)
Definition group_commitOffsetsIfNecessary : M unit :=
  r <- rpc EvCommitOffsetsIfNecessary ;;
  if r_due r then modify_group commit_resolved else ret tt.

(** Modelled from the spec: [resolveOffset({topic, partition, offset})]
    marks the offset as ready to commit for its partition. *)
Definition group_resolveOffset (t : Topic) (p : Partition) (o : Offset)
  : M unit :=
  log (EvResolveOffset t p o) ;;
  modify_group (fun g => set_resolved (<[(t, p) := o]> (resolved g)) g).

(** Modelled from the spec: [hasSeekOffset({topic, partition}) -> bool]. *)
Definition hasSeekOffset (t : Topic) (p : Partition) (g : ConsumerGroup)
  : bool :=
  match seekOffset g !! (t, p) with Some _ => true | None => false end.

(** Modelled from the spec: [uncommittedOffsets()], the snapshot of the
    offsets that are resolved and not yet committed. *)
Definition uncommittedOffsets (g : ConsumerGroup) : gmap (string * Z) Z :=
  filter (fun kv => committed g !! kv.1 ≠ Some (Z.succ kv.2)) (resolved g).

(** ** User handlers *)

(** One run of the [eachMessage] handler: what other tasks did while it was
    awaited, and whether it rejected. *)
Record HandlerRun := mkRun {
  h_during : list Interference;
  h_error : option Error;
}.

Definition MessageHandler := Topic -> Partition -> Message -> HandlerRun.

(** An [eachBatch] handler is a program over the control surface that
    [processEachBatch] hands to it.  The continuations of the awaited calls
    receive the rejection, if any, so a handler may catch it or pass it on
    with [BThrow]. *)
Inductive BatchProg :=
| BReturn
| BThrow (e : Error)
| BResolveOffset (o : Offset) (k : BatchProg)
| BHeartbeat (k : option Error -> BatchProg)
| BCommitOffsetsIfNecessary (offsets : option (list (string * Z * Z)))
    (k : option Error -> BatchProg)
| BUncommittedOffsets (k : gmap (string * Z) Z -> BatchProg)
| BIsRunning (k : bool -> BatchProg)
| BIsStale (k : bool -> BatchProg)
| BAwait (during : list Interference) (k : BatchProg).

Definition BatchHandler := Batch -> BatchProg.

(** ** The retrier *)

(** What the retried function did when it returned: nothing special, or it
    called [bail(e)] before returning. *)
Inductive Attempt :=
| Returned
| Bailed (e : Error).

(** Modelled from the spec: the retry policy created by [createRetry]
    (retry/index.js is not part of the sources).  The function is run with
    the retry count; a return resolves, [bail(e)] rejects with [e] without
    retrying, a throw is retried after a backoff while the configured number
    of retries lasts, and on exhaustion the error surfaces.  The backoff is a
    suspension point. *)
Fixpoint retrier (budget retryCount : nat) (fn : nat -> M Attempt) : M unit :=
  r <- reify (fn retryCount) ;;
  match r with
  | Val Returned => ret tt
  | Val (Bailed e) => throw e
  | Exn e =>
      match budget with
      | 0 => throw e
      | S budget' =>
          log (EvBackoff retryCount) ;; suspend ;;
          retrier budget' (S retryCount) fn
      end
  | Pending => pending
  end.

(** ** The Runner *)

Record Config := mkConfig {
  eachBatchAutoResolve : bool;
  partitionsConsumedConcurrently : nat;
  eachBatch : option BatchHandler;
  eachMessage : option MessageHandler;
  heartbeatInterval : Z;
  retries : nat;
  autoCommit : bool;
  isTestMode : bool;
}.

Definition isRebalancing (e : Error) : bool :=
  String.eqb (errType e) "REBALANCE_IN_PROGRESS" ||
  String.eqb (errType e) "NOT_COORDINATOR_FOR_GROUP".

Definition isKafkaJSError (e : Error) : bool := errIsKafkaJS e.

(** [new KafkaJSError('The group is rebalancing')] *)
Definition groupIsRebalancing : Error :=
  mkError "KafkaJSError" "" "The group is rebalancing" true.

Definition assign_running (site : Site) (b : bool) : M unit := fun w =>
  (Val tt, set_running b w, [EvRunning site (running w) b]).

Definition assign_consuming (b : bool) : M unit := fun w =>
  (Val tt, set_consuming b w, [EvConsuming b]).

Section Runner.

Variable cfg : Config.

(** [join()], lines 45-78. *)
Definition join_attempt (retryCount : nat) : M Attempt :=
  try_catch
    (group_join ;;
     group_sync ;;
     assign_running InJoin true ;;
     g <- get group ;;
     log (EvEmit (GROUP_JOIN (memberId g))) ;;
     log (EvLog Info "Consumer has joined the group") ;;
     ret Returned)
    (fun e =>
       if isRebalancing e then throw groupIsRebalancing
       else log (EvBail e) ;; ret (Bailed e)).

Definition join : M unit := retrier (retries cfg) 0 join_attempt.

(** [autoCommitOffsets()] and [autoCommitOffsetsIfNecessary()],
    lines 350-360. *)
Definition autoCommitOffsets : M unit :=
  if autoCommit cfg then group_commitOffsets None else ret tt.

Definition autoCommitOffsetsIfNecessary : M unit :=
  if autoCommit cfg then group_commitOffsetsIfNecessary else ret tt.

(** One call of the [eachMessage] handler. *)
Definition callEachMessage (h : MessageHandler) (t : Topic) (p : Partition)
    (m : Message) : M unit :=
  log (EvEachMessage t p (offset m)) ;;
  modify (interfere (h_during (h t p m))) ;;
  match h_error (h t p m) with
  | Some e => throw e
  | None => ret tt
  end.

(** The loop of [processEachMessage(batch)], lines 137-162. *)
Fixpoint eachMessageLoop (h : MessageHandler) (t : Topic) (p : Partition)
    (ms : list Message) : M unit :=
  match ms with
  | [] => ret tt
  | m :: rest =>
      r <- get running ;;
      s <- get (fun w => hasSeekOffset t p (group w)) ;;
      if negb r || s then ret tt
      else
        try_catch (callEachMessage h t p m)
          (fun e =>
             (if negb (isKafkaJSError e)
              then log (EvLog LError "Error when calling eachMessage")
              else ret tt) ;;
             group_commitOffsets None ;;
             throw e) ;;
        group_resolveOffset t p (offset m) ;;
        group_heartbeat (heartbeatInterval cfg) ;;
        group_commitOffsetsIfNecessary ;;
        eachMessageLoop h t p rest
  end.

Definition processEachMessage (h : MessageHandler) (batch : Batch) : M unit :=
  eachMessageLoop h (topic batch) (partition batch) (messages batch).

(** The control surface handed to [eachBatch], lines 171-190, run against
    the handler's program. *)
Fixpoint runEachBatch (t : Topic) (p : Partition) (prog : BatchProg) : M unit :=
  match prog with
  | BReturn => ret tt
  | BThrow e => throw e
  | BResolveOffset o k =>
      group_resolveOffset t p o ;; runEachBatch t p k
  | BHeartbeat k =>
      r <- attempt (group_heartbeat (heartbeatInterval cfg)) ;;
      runEachBatch t p (k r)
  | BCommitOffsetsIfNecessary offsets k =>
      r <- attempt (match offsets with
                    | Some l => group_commitOffsets (Some l)
                    | None => group_commitOffsetsIfNecessary
                    end) ;;
      runEachBatch t p (k r)
  | BUncommittedOffsets k =>
      u <- get (fun w => uncommittedOffsets (group w)) ;;
      runEachBatch t p (k u)
  | BIsRunning k =>
      r <- get running ;; runEachBatch t p (k r)
  | BIsStale k =>
      s <- get (fun w => hasSeekOffset t p (group w)) ;;
      runEachBatch t p (k s)
  | BAwait during k =>
      modify (interfere during) ;; runEachBatch t p k
  end.

(** [processEachBatch(batch)], lines 165-213. *)
Definition processEachBatch (h : BatchHandler) (batch : Batch) : M unit :=
  try_catch
    (log (EvEachBatch (topic batch) (partition batch)) ;;
     runEachBatch (topic batch) (partition batch) (h batch))
    (fun e =>
       (if negb (isKafkaJSError e)
        then log (EvLog LError "Error when calling eachBatch")
        else ret tt) ;;
       autoCommitOffsets ;;
       throw e) ;;
  if eachBatchAutoResolve cfg
  then group_resolveOffset (topic batch) (partition batch) (lastOffset batch)
  else ret tt.

(** [onBatch], lines 224-248. *)
Definition onBatch (batch : Batch) : M unit :=
  log (EvEmit (START_BATCH_PROCESS (batchPayload batch))) ;;
  match eachMessage cfg with
  | Some h => processEachMessage h batch
  | None =>
      match eachBatch cfg with
      | Some h => processEachBatch h batch
      | None => ret tt
      end
  end ;;
  log (EvEmit (END_BATCH_PROCESS (batchPayload batch))).

(** The task submitted to the concurrency limiter for one batch,
    lines 253-263. *)
Definition batchTask (batch : Batch) : M unit :=
  r <- get running ;;
  if negb r then ret tt
  else if isEmpty batch then ret tt
  else onBatch batch.

(** [Promise.all] over the limited tasks, in the schedule in which each task
    runs to its end before the next one is started (the schedule of
    [partitionsConsumedConcurrently = 1]); the first rejection rejects the
    cycle, and what the limiter starts after it is no longer awaited by
    [fetch].  The limiter itself is the subject of [Module Concurrency]. *)
Fixpoint awaitAll (batches : list Batch) : M unit :=
  match batches with
  | [] => ret tt
  | batch :: rest => batchTask batch ;; awaitAll rest
  end.

(** [fetch()], lines 215-269, from the answer of [consumerGroup.fetch()] on,
    and as a whole. *)
Definition fetch_resume : M unit :=
  batches <- group_fetch_answer ;;
  log (EvEmit (FETCH (length batches))) ;;
  awaitAll batches ;;
  autoCommitOffsets ;;
  group_heartbeat (heartbeatInterval cfg).

Definition fetch : M unit := log EvFetch ;; fetch_resume.

(** How one attempt of the function retried by [scheduleFetch] leaves its
    [try]/[catch]: the cycle completed and the next one was scheduled with
    [setImmediate]; the [catch] returned because the runner is not running;
    the [catch] is about to call [this.scheduleFetch()] and return; or it
    returned [bail(e)].  A re-thrown error is the exception of the monad. *)
Inductive Step :=
| Cycled
| Exited
| Reenter
| Bail (e : Error).

(** The [catch] block of [scheduleFetch], lines 286-343, up to the re-entry. *)
Definition onFetchError (e : Error) : M Step :=
  r <- get running ;;
  if negb r then
    log (EvLog Debug "consumer not running, exiting") ;; ret Exited
  else if isRebalancing e then
    log (EvLog LError "The group is rebalancing, re-joining") ;;
    join ;;
    ret Reenter
  else if String.eqb (errType e) "UNKNOWN_MEMBER_ID" then
    log (EvLog LError
           "The coordinator is not aware of this member, re-joining the group") ;;
    log EvMemberIdNull ;;
    modify_group (set_memberId None) ;;
    join ;;
    ret Reenter
  else if String.eqb (errName e) "KafkaJSOffsetOutOfRange" then
    ret Reenter
  else if String.eqb (errName e) "KafkaJSNotImplemented" then
    log (EvBail e) ;; ret (Bail e)
  else
    log (EvLog Debug "Error while fetching data, trying again...") ;;
    throw e.

(** The synchronous part of a call of [scheduleFetch()], lines 272-283, up
    to the suspension on [consumerGroup.fetch()]; tells whether a cycle was
    started. *)
Definition scheduleFetch_enter : M bool :=
  r <- get running ;;
  if negb r then
    log (EvLog Debug "consumer not running, exiting") ;; ret false
  else
    assign_consuming true ;; log EvFetch ;; ret true.

(** One attempt from that suspension on, lines 283-343. *)
Definition cycle_resume : M Step :=
  try_catch
    (fetch_resume ;;
     assign_consuming false ;;
     log EvSetImmediate ;;
     ret Cycled)
    onFetchError.

(** What follows an attempt, by the way it left its [try]/[catch]: the
    [finally] of line 345, the call of [this.scheduleFetch()] where the
    [catch] makes one, and the outcome of the retrier of line 280 with
    [.catch(this.onCrash)].  [scheduleFetch] calls itself without awaiting,
    so the synchronous part of a re-entry made by the [catch] runs before
    the [finally], and the rest of it after; the re-entry made through
    [setImmediate] runs in a later turn of the event loop.  [again] is the
    fetch loop from the next suspension on, given what is left of the
    retries and the retry count. *)
Definition afterAttempt (again : nat -> nat -> M unit)
    (budget retryCount : nat) (r : Res Step) : M unit :=
  match r with
  | Val Cycled =>
      assign_consuming false ;;
      suspend ;;
      started <- scheduleFetch_enter ;;
      if started then again (retries cfg) 0 else ret tt
  | Val Exited =>
      assign_consuming false
  | Val Reenter =>
      started <- scheduleFetch_enter ;;
      assign_consuming false ;;
      if started then again (retries cfg) 0 else ret tt
  | Val (Bail e) =>
      assign_consuming false ;;
      log (EvOnCrash e)
  | Exn e =>
      assign_consuming false ;;
      match budget with
      | 0 => log (EvOnCrash e)
      | S budget' =>
          log (EvBackoff retryCount) ;; suspend ;;
          assign_consuming true ;; log EvFetch ;;
          again budget' (S retryCount)
      end
  | Pending => pending
  end.

(** The fetch loop from the first suspension on; the retrier is unfolded in
    [afterAttempt].  [fuel] bounds the number of attempts that are
    followed. *)
Fixpoint scheduleFetch_resume (fuel budget retryCount : nat) : M unit :=
  match fuel with
  | 0 => pending
  | S fuel' =>
      r <- reify cycle_resume ;;
      afterAttempt (scheduleFetch_resume fuel') budget retryCount r
  end.

(** [scheduleFetch()], lines 271-348. *)
Definition scheduleFetch (fuel : nat) : M unit :=
  started <- scheduleFetch_enter ;;
  if started then scheduleFetch_resume fuel (retries cfg) 0 else ret tt.

(** [start()], lines 80-93.  The fetch loop is launched without being
    awaited; it never rejects, its errors end in [onCrash]. *)
Definition start (fuel : nat) : M unit :=
  r <- get running ;;
  if r then ret tt
  else
    r <- reify (join ;; assign_running InStart true) ;;
    match r with
    | Val _ => scheduleFetch fuel
    | Exn e => log (EvOnCrash e)
    | Pending => pending
    end.

(** [waitForConsumer()], lines 115-132. *)
Fixpoint scheduleWait (fuel : nat) : M unit :=
  match fuel with
  | 0 => pending
  | S fuel' =>
      log (EvLog Debug "waiting for consumer to finish...") ;;
      log (EvTimeout 1000) ;;
      suspend ;;
      c <- get consuming ;;
      if negb c then ret tt else scheduleWait fuel'
  end.

Definition waitForConsumer (fuel : nat) : M unit :=
  c <- get consuming ;;
  if negb c then ret tt else scheduleWait fuel.

(** [stop()], lines 95-113. *)
Definition stop (fuel : nat) : M unit :=
  r <- get running ;;
  if negb r then ret tt
  else
    log (EvLog Debug "stop consumer group") ;;
    assign_running InStop false ;;
    try_catch
      ((if isTestMode cfg then ret tt else waitForConsumer fuel) ;;
       group_leave)
      (fun _ => ret tt).

End Runner.

(** ** The concurrency limiter *)

Module Concurrency.

(** Modelled from the spec: the limiter created by [limitConcurrency]
    (utils/concurrency.js is not part of the sources; [fetch] calls it at
    lines 250-265).  Given a limit, it lets at most that many tasks at a
    time and queues the rest in FIFO order; the future returned for a task
    settles as the task does; a task that rejects releases its slot at once,
    so that the next queued task starts.  Tasks are named by the position of
    their submission. *)
Inductive Settlement :=
| Fulfilled
| Rejected (e : Error).

(** What happens to the limiter: a task is handed to it, or a task it started
    settles. *)
Inductive Action :=
| Call (task : nat)
| Complete (task : nat) (s : Settlement).

(** What the limiter does: it starts a task, or settles the future of one. *)
Inductive Notice :=
| Started (task : nat)
| Settled (task : nat) (s : Settlement).

(** Modelled from the spec: the state of a limiter: its limit, the tasks in
    flight, the queue of waiting tasks with the oldest first, and what it
    did so far. *)
Record Limiter := mkLimiter {
  limit : nat;
  inFlight : list nat;
  waiting : list nat;
  history : list Notice;
}.

(** Modelled from the spec: [limitConcurrency({ limit })]. *)
Definition create (n : nat) : Limiter := mkLimiter n [] [] [].

(** Modelled from the spec: a task is started and occupies a slot. *)
Definition invoke (task : nat) (l : Limiter) : Limiter :=
  mkLimiter (limit l) (inFlight l ++ [task]) (waiting l)
    (history l ++ [Started task]).

(** Modelled from the spec: a task handed in starts at once while a slot is
    free, and joins the end of the queue otherwise. *)
Definition call (task : nat) (l : Limiter) : Limiter :=
  if length (inFlight l) <? limit l then invoke task l
  else mkLimiter (limit l) (inFlight l) (waiting l ++ [task]) (history l).

(** Modelled from the spec: the oldest waiting task, if any, starts. *)
Definition next (l : Limiter) : Limiter :=
  match waiting l with
  | [] => l
  | task :: rest =>
      invoke task (mkLimiter (limit l) (inFlight l) rest (history l))
  end.

(** Modelled from the spec: the slot of a task is given back. *)
Fixpoint release (task : nat) (running : list nat) : list nat :=
  match running with
  | [] => []
  | t :: rest => if t =? task then rest else t :: release task rest
  end.

(** Modelled from the spec: when a task in flight settles, its future
    settles in the same way, with its value or its error, its slot is
    released at once and the next queued task starts. *)
Definition complete (task : nat) (s : Settlement) (l : Limiter) : Limiter :=
  if existsb (Nat.eqb task) (inFlight l) then
    next (mkLimiter (limit l) (release task (inFlight l)) (waiting l)
            (history l ++ [Settled task s]))
  else l.

Definition step (l : Limiter) (a : Action) : Limiter :=
  match a with
  | Call task => call task l
  | Complete task s => complete task s l
  end.

Definition run (n : nat) (acts : list Action) : Limiter :=
  fold_left step acts (create n).

(** The tasks handed in, and the tasks started, in order. *)
Definition calls (acts : list Action) : list nat :=
  flat_map (fun a => match a with Call t => [t] | Complete _ _ => [] end) acts.

Definition started (h : list Notice) : list nat :=
  flat_map (fun n => match n with Started t => [t] | Settled _ _ => [] end) h.

(** Strictly serial execution: every task that starts settles before the
    next one starts. *)
Inductive serial : list Notice -> Prop :=
| serial_nil : serial []
| serial_last task : serial [Started task]
| serial_cons task s h : serial h -> serial (Started task :: Settled task s :: h).

(** What holds of the limiter after the actions [acts]: no more tasks in
    flight than the limit, nothing waiting while a slot is free, and the tasks
    started so far followed by those waiting are the tasks handed in, in
    their order. *)
Record invariant (acts : list Action) (l : Limiter) : Prop := mkInvariant {
  inv_bound : length (inFlight l) <= limit l;
  inv_full : waiting l = [] \/ length (inFlight l) = limit l;
  inv_fifo : started (history l) ++ waiting l = calls acts;
}.

(** The history of tasks that ran one after the other. *)
Definition oneByOne (settled : list (nat * Settlement)) : list Notice :=
  flat_map (fun '(t, s) => [Started t; Settled t s]) settled.

End Concurrency.

(** The limiter of one fetch cycle, lines 250-265: created with
    [partitionsConsumedConcurrently], handed one task per batch at once, in
    the order of the batches, and then told of completions. *)
Definition fetchLimiter (cfg : Config) (batches : list Batch)
    (completions : list Concurrency.Action) : Concurrency.Limiter :=
  fold_left Concurrency.step
    (map Concurrency.Call (seq 0 (length batches)) ++ completions)
    (Concurrency.create (partitionsConsumedConcurrently cfg)).

(** ** The produce protocol table (src/unnamed/part_000) *)

Module Produce.

(** An argument of a call that destructures an object: the property is
    absent ([undefined]) or given. *)
Inductive Arg (A : Type) :=
| Omitted
| Given (a : A).
Arguments Omitted {A}.
Arguments Given {A} a.

Section Versions.

(** The values that the table only passes on, and the request builders and
    responses of [./v0] to [./v3], which it requires and which are not part
    of the sources. *)
Variables Acks Timeout TopicData Compression Request Response : Type.
Variables request0 request1 : Acks -> Timeout -> TopicData -> Request.
Variable request2 : Acks -> Timeout -> Compression -> TopicData -> Request.
Variable request3 :
  option string -> Acks -> Timeout -> Compression -> TopicData -> Request.
Variables response0 response1 response2 response3 : Response.

(** The object that a version function destructures; [transactionalId] may
    be absent, [null] or a string. *)
Record Args := mkArgs {
  transactionalId : Arg (option string);
  acks : Acks;
  timeout : Timeout;
  compression : Compression;
  topicData : TopicData;
}.

(** The default of line 17: [transactionalId = null] stands in for an absent
    property only. *)
Definition orNull (a : Arg (option string)) : option string :=
  match a with
  | Omitted => None
  | Given t => t
  end.

(** The object [versions], lines 1-25, with its keys in the order in which
    [Object.keys] lists them. *)
Definition versions : list (string * (Args -> Request * Response)) :=
  [ ("0", fun a => (request0 (acks a) (timeout a) (topicData a), response0));
    ("1", fun a => (request1 (acks a) (timeout a) (topicData a), response1));
    ("2", fun a =>
            (request2 (acks a) (timeout a) (compression a) (topicData a),
             response2));
    ("3", fun a =>
            (request3 (orNull (transactionalId a)) (acks a) (timeout a)
               (compression a) (topicData a),
             response3)) ].

(** A property access [table[key]]; a key that the object does not have
    gives [undefined]. *)
Fixpoint property {V : Type} (table : list (string * V)) (key : string)
  : option V :=
  match table with
  | [] => None
  | (k, v) :: rest => if String.eqb k key then Some v else property rest key
  end.

(** The exports, lines 27-30: [versions: Object.keys(versions)] and
    [protocol: ({ version }) => versions[version]].  The version is an
    integer, which the property access turns into its decimal string. *)
Definition versionKeys : list string := map fst versions.

Definition protocol (version : Z) : option (Args -> Request * Response) :=
  property versions (pretty version).

End Versions.

Arguments mkArgs {Acks Timeout TopicData Compression} _ _ _ _ _.
Arguments transactionalId {Acks Timeout TopicData Compression} _.
Arguments acks {Acks Timeout TopicData Compression} _.
Arguments timeout {Acks Timeout TopicData Compression} _.
Arguments compression {Acks Timeout TopicData Compression} _.
Arguments topicData {Acks Timeout TopicData Compression} _.

End Produce.

(** ** Predicates of the specification *)

(** The events that a computation issues satisfy [P], whatever the state. *)
Definition emits {A} (P : Event -> Prop) (m : M A) : Prop :=
  forall w, Forall P (m w).2.

(** An assignment of [this.running] made at one of [sites] and writing
    [new]; any other event passes. *)
Definition runningWrite (sites : list Site) (new : bool) (ev : Event) : Prop :=
  match ev with
  | EvRunning s _ n => In s sites /\ n = new
  | _ => True
  end.

Definition writesRunning (ev : Event) : bool :=
  match ev with EvRunning _ _ _ => true | _ => false end.

Definition callsEachBatch (ev : Event) : bool :=
  match ev with EvEachBatch _ _ => true | _ => false end.

(** The outcome of a computation that ran after the events [pre]. *)
Definition after {A} (pre : list Event) (x : Res A * World * list Event)
  : Res A * World * list Event :=
  (x.1.1, x.1.2, pre ++ x.2).

(** The outcome of the [catch] block of [scheduleFetch] when it re-joins:
    after a successful [join] it goes on to re-enter, and a failure of
    [join] leaves the [catch] block as it is. *)
Definition thenReenter (pre : list Event) (x : Res unit * World * list Event)
  : Res Step * World * list Event :=
  (match x.1.1 with
   | Val _ => Val Reenter
   | Exn e => Exn e
   | Pending => Pending
   end, x.1.2, pre ++ x.2).

(** The answer that the next suspension receives, and the state in which
    the computation resumes. *)
Definition received (w : World) : Response := hd quiet (script w).

Definition resumed (w : World) : World := (suspend w).1.2.

(** The state after [n] suspensions, the events of [n] polls of
    [waitForConsumer], and the first poll, the test of line 126 included,
    that finds [consuming] false, if there is one among the first [fuel]. *)
Fixpoint afterPolls (n : nat) (w : World) : World :=
  match n with
  | 0 => w
  | S n' => afterPolls n' (resumed w)
  end.

Definition polls (n : nat) : list Event :=
  concat (replicate n [EvLog Debug "waiting for consumer to finish...";
                       EvTimeout 1000]).

Fixpoint firstQuiet (fuel : nat) (w : World) : option nat :=
  if negb (consuming w) then Some 0
  else match fuel with
       | 0 => None
       | S fuel' => S <$> firstQuiet fuel' (resumed w)
       end.

(** Every call of the script is answered without a rejection. *)
Definition answered (s : list Response) : Prop :=
  Forall (fun r => r_failure r = None) s.

(** The cursor of a partition lies below the offset [k]: what is resolved
    is before [k], and what is committed is not past [k]. *)
Definition cursorBelow (t : Topic) (p : Partition) (k : Offset)
    (g : ConsumerGroup) : Prop :=
  (forall o, resolved g !! (t, p) = Some o -> (o < k)%Z) /\
  (forall c, committed g !! (t, p) = Some c -> (c <= k)%Z).

(** What the [catch] block of [processEachMessage] logs for an error. *)
Definition eachMessageErrorLog (e : Error) : list Event :=
  if negb (isKafkaJSError e)
  then [EvLog LError "Error when calling eachMessage"]
  else [].

(** A computation keeps an invariant of the state, however it ends. *)
Definition keeps {A} (I : World -> Prop) (m : M A) : Prop :=
  forall w, I w -> I (m w).1.2.

(** No other task assigns [running] during the suspensions of the script. *)
Definition leavesRunning (i : Interference) : bool :=
  match i with IRunning _ => false | _ => true end.

Definition undisturbed (s : list Response) : Prop :=
  Forall (fun r => forallb leavesRunning (r_during r) = true) s.

(** [running] has the value [b] and no other task is going to assign it. *)
Definition stays (b : bool) (w : World) : Prop :=
  running w = b /\ undisturbed (script w).

(** The rising edges of [running] among the events of a run. *)
Definition risingEdge (ev : Event) : bool :=
  match ev with EvRunning _ false true => true | _ => false end.

(** ** Concrete scenarios *)

Definition joinedGroup : ConsumerGroup := mkGroup (Some "member-1") ∅ ∅ ∅.

Definition rejected (e : Error) : Response := mkResponse [] (Some e) [] "" false.

Definition delivered (batches : list Batch) : Response :=
  mkResponse [] None batches "" false.

Definition unknownMemberId : Error :=
  mkError "KafkaJSProtocolError" "UNKNOWN_MEMBER_ID"
    "The coordinator is not aware of this member" true.

(** Three partitions of a topic with the messages of offsets 0 and 1 each,
    fetched by a running runner whose handler accepts every message. *)
Definition threePartitions : list Batch :=
  map (fun p => mkBatch "t" p 2%Z [mkMessage 0%Z "k" "v"; mkMessage 1%Z "k" "v"])
    [0%Z; 1%Z; 2%Z].

Definition happyConfig : Config :=
  mkConfig true 3 None (Some (fun _ _ _ => mkRun [] None)) 3000 5 true false.

Definition happyPath : World :=
  mkWorld true true joinedGroup [delivered threePartitions].

(** The fetch of a running runner is rejected with UNKNOWN_MEMBER_ID, and the
    coordinator hands out a new member id at the re-join. *)
Definition fetchUnknownMember : World :=
  mkWorld true false joinedGroup
    [rejected unknownMemberId; mkResponse [] None [] "member-2" false].

Definition isEachMessage (ev : Event) : bool :=
  match ev with EvEachMessage _ _ _ => true | _ => false end.

Definition isOnCrash (ev : Event) : bool :=
  match ev with EvOnCrash _ => true | _ => false end.

Definition rebalanceInProgress : Error :=
  mkError "KafkaJSProtocolError" "REBALANCE_IN_PROGRESS"
    "The group is rebalancing, so a rejoin is needed" true.

Definition notImplemented : Error :=
  mkError "KafkaJSNotImplemented" "" "Not implemented" true.

Definition handlerFailure : Error := mkError "Error" "" "boom" false.

Definition okHandler : MessageHandler := fun _ _ _ => mkRun [] None.

Definition messageConfig (commit : bool) : Config :=
  mkConfig true 1 None (Some okHandler) 3000 5 commit false.

(** A stopped runner is started; its first fetch is rejected with
    REBALANCE_IN_PROGRESS, and while the scheduler awaits the re-join another
    task calls [stop()]. *)
Definition stopDuringRejoin : World :=
  mkWorld false false joinedGroup
    [quiet; quiet; rejected rebalanceInProgress;
     mkResponse [IRunning false] None [] "" false; quiet].

(** The fetch of a running runner is rejected with KafkaJSNotImplemented. *)
Definition fetchNotImplemented : World :=
  mkWorld true false joinedGroup [rejected notImplemented].

(** The fetch of a running runner is rejected with an error of no particular
    kind. *)
Definition fetchFails : World :=
  mkWorld true false joinedGroup [rejected handlerFailure].

(** The first join of a stopped runner is rejected. *)
Definition joinFails : World :=
  mkWorld false false joinedGroup [rejected handlerFailure].

(** A running runner in the middle of a fetch cycle that ends during the
    second poll of [stop]; the group then rejects the [leave]. *)
Definition stopWhileConsuming : World :=
  mkWorld true true joinedGroup
    [quiet; mkResponse [IConsuming false] None [] "" false;
     rejected handlerFailure].

Definition liveConfig : Config := messageConfig true.

Definition testConfig : Config :=
  mkConfig true 1 None (Some okHandler) 3000 5 true true.

(** Two messages of partition 0 of a topic, and a runner that was joined
    and has nothing scripted. *)
Definition twoMessages : Batch :=
  mkBatch "topic-test" 0%Z 12%Z
    [mkMessage 10%Z "k" "v"; mkMessage 11%Z "k" "v"].

Definition runningQuietly : World := mkWorld true true joinedGroup [].

(** A batch handler that resolves every offset of its batch. *)
Definition resolveAll : BatchHandler := fun batch =>
  foldr (fun m k => BResolveOffset (offset m) k) BReturn (messages batch).

Definition bothHandlers : Config :=
  mkConfig true 1 (Some resolveAll) (Some okHandler) 3000 5 true false.

Definition noHandler : Config :=
  mkConfig true 1 None None 3000 5 true false.

(** A batch handler that looks at [isStale()] first and returns at once on
    a stale batch. *)
Definition returnIfStale : BatchHandler := fun batch =>
  BIsStale (fun stale => if stale then BReturn else resolveAll batch).

Definition batchConfig (autoResolve : bool) : Config :=
  mkConfig autoResolve 1 (Some returnIfStale) None 3000 5 true false.

(** A batch handler that resolves offset 10, during whose next await the
    partition is seeked to offset 50, and that returns when [isStale()]
    tells so. *)
Definition seekedMeanwhile : BatchHandler := fun batch =>
  BResolveOffset 10
    (BAwait [ISeek "topic-test" 0 50]
       (BIsStale (fun stale => if stale then BReturn else resolveAll batch))).

Definition seekedConfig : Config :=
  mkConfig true 1 (Some seekedMeanwhile) None 3000 5 true false.

(** The partition of [twoMessages] was seeked to offset 50 after the fetch. *)
Definition seekPending : World :=
  mkWorld true true
    (mkGroup (Some "member-1") ∅ ∅ {[ ("topic-test", 0%Z) := 50%Z ]}) [].

(** A message handler that rejects the message at offset 11. *)
Definition failsAt11 : MessageHandler := fun _ _ m =>
  if (offset m =? 11)%Z then mkRun [] (Some handlerFailure) else mkRun [] None.

(** The commit thresholds are met at the first message. *)
Definition commitDue : World :=
  mkWorld true true joinedGroup [quiet; mkResponse [] None [] "" true].

(** The batch of offsets 10, 11 and 12 of the scenario "handler throws on
    second message of three". *)
Definition threeMessages : Batch :=
  mkBatch "topic-test" 0%Z 13%Z
    [mkMessage 10%Z "k" "v"; mkMessage 11%Z "k" "v"; mkMessage 12%Z "k" "v"].

(** ** Further predicates and scenarios *)

Definition isResolveOffset (ev : Event) : bool :=
  match ev with EvResolveOffset _ _ _ => true | _ => false end.

Definition isCommit (ev : Event) : bool :=
  match ev with
  | EvCommitOffsets _ | EvCommitOffsetsIfNecessary => true
  | _ => false
  end.

(** The handler calls and the offsets resolved for the messages [ms] of
    partition [p] of topic [t], as events. *)
Definition handlerCalls (t : Topic) (p : Partition) (ms : list Message)
  : list Event :=
  map (fun m => EvEachMessage t p (offset m)) ms.

Definition resolutions (t : Topic) (p : Partition) (ms : list Message)
  : list Event :=
  map (fun m => EvResolveOffset t p (offset m)) ms.

(** What the loop of [processEachMessage] issues for a message that the
    handler accepts. *)
Definition messageRound (cfg : Config) (t : Topic) (p : Partition)
    (m : Message) : list Event :=
  [EvEachMessage t p (offset m); EvResolveOffset t p (offset m);
   EvHeartbeat (heartbeatInterval cfg); EvCommitOffsetsIfNecessary].

(** An interference that does not end the loop of [processEachMessage] on
    partition [p] of topic [t]: it neither clears [running] nor seeks that
    partition. *)
Definition harmless (t : Topic) (p : Partition) (i : Interference) : bool :=
  match i with
  | IRunning b => b
  | IConsuming _ => true
  | ISeek t' p' _ => negb (String.eqb t' t && Z.eqb p' p)
  end.

(** No call of the script is rejected, and what happens during its
    suspensions is harmless. *)
Definition calm (t : Topic) (p : Partition) (s : list Response) : Prop :=
  Forall (fun r => forallb (harmless t p) (r_during r) = true /\
                   r_failure r = None) s.

(** The runner is running, no seek is pending on the partition, and it is
    going to stay so. *)
Definition goesOn (t : Topic) (p : Partition) (w : World) : Prop :=
  running w = true /\ hasSeekOffset t p (group w) = false /\
  calm t p (script w).

(** The handler accepts the message, harmlessly. *)
Definition accepts (h : MessageHandler) (t : Topic) (p : Partition)
    (m : Message) : Prop :=
  h_error (h t p m) = None /\
  forallb (harmless t p) (h_during (h t p m)) = true.

(** What the [catch] block of [processEachBatch] logs for an error. *)
Definition eachBatchErrorLog (e : Error) : list Event :=
  if negb (isKafkaJSError e)
  then [EvLog LError "Error when calling eachBatch"]
  else [].

Definition isEmit (ev : Event) : bool :=
  match ev with EvEmit _ => true | _ => false end.

Definition isJoinCall (ev : Event) : bool :=
  match ev with EvJoin => true | _ => false end.

(** What [processEachMessage] may do on a batch of partition [p] of topic
    [t] whose messages have the offsets [offs]. *)
Definition messageScope (cfg : Config) (t : Topic) (p : Partition)
    (offs : list Offset) (ev : Event) : Prop :=
  match ev with
  | EvEachMessage t' p' o | EvResolveOffset t' p' o =>
      t' = t /\ p' = p /\ In o offs
  | EvHeartbeat i => i = heartbeatInterval cfg
  | EvCommitOffsets o => o = None
  | EvCommitOffsetsIfNecessary => True
  | EvLog lvl _ => lvl = LError
  | _ => False
  end.

(** What [processEachBatch] may do on a batch of partition [p] of topic
    [t]; the offsets resolved and committed are the handler's choice. *)
Definition batchScope (cfg : Config) (t : Topic) (p : Partition) (ev : Event)
  : Prop :=
  match ev with
  | EvEachBatch t' p' | EvResolveOffset t' p' _ => t' = t /\ p' = p
  | EvHeartbeat i => i = heartbeatInterval cfg
  | EvCommitOffsets _ | EvCommitOffsetsIfNecessary => True
  | EvLog lvl _ => lvl = LError
  | _ => False
  end.

(** What a fetch cycle may do when [consumerGroup.fetch()] has answered
    with [batches]. *)
Definition fetchScope (cfg : Config) (batches : list Batch) (ev : Event)
  : Prop :=
  match ev with
  | EvFetch => True
  | EvEmit (FETCH n) => n = length batches
  | EvEmit (START_BATCH_PROCESS pl) | EvEmit (END_BATCH_PROCESS pl) =>
      exists b, In b batches /\ isEmpty b = false /\ pl = batchPayload b
  | EvEachMessage t p o =>
      eachMessage cfg <> None /\
      exists b, In b batches /\ t = topic b /\ p = partition b /\
                In o (offset <$> messages b)
  | EvEachBatch t p =>
      eachMessage cfg = None /\ eachBatch cfg <> None /\
      exists b, In b batches /\ t = topic b /\ p = partition b
  | EvResolveOffset t p o =>
      exists b, In b batches /\ t = topic b /\ p = partition b /\
                (eachMessage cfg <> None -> In o (offset <$> messages b))
  | EvHeartbeat i => i = heartbeatInterval cfg
  | EvCommitOffsets o => o = None \/ eachMessage cfg = None
  | EvCommitOffsetsIfNecessary => True
  | EvLog lvl _ => lvl = LError
  | _ => False
  end.

(** A handler program that never calls [commitOffsetsIfNecessary],
    whatever it is answered. *)
Inductive neverCommits : BatchProg -> Prop :=
| nc_return : neverCommits BReturn
| nc_throw e : neverCommits (BThrow e)
| nc_resolveOffset o k : neverCommits k -> neverCommits (BResolveOffset o k)
| nc_heartbeat k : (forall r, neverCommits (k r)) -> neverCommits (BHeartbeat k)
| nc_uncommittedOffsets k :
    (forall u, neverCommits (k u)) -> neverCommits (BUncommittedOffsets k)
| nc_isRunning k : (forall r, neverCommits (k r)) -> neverCommits (BIsRunning k)
| nc_isStale k : (forall s, neverCommits (k s)) -> neverCommits (BIsStale k)
| nc_await during k : neverCommits k -> neverCommits (BAwait during k).


(** The state in which the batches of a fetch are taken up. *)
Definition fetched (w : World) : World :=
  set_group (set_seekOffset ∅ (group (resumed w))) (resumed w).

(** A batch handler that resolves the last offset of its batch and sends a
    heartbeat, and a runner that leaves the commits to its user. *)
Definition resolveLast : BatchHandler := fun batch =>
  BResolveOffset (lastOffset batch) (BHeartbeat (fun _ => BReturn)).

Definition manualCommit : Config :=
  mkConfig false 1 (Some resolveLast) None 3000 5 false false.

(** A batch handler that resolves the first offset and then fails. *)
Definition failsAfterFirst : BatchHandler := fun batch =>
  BResolveOffset 10 (BThrow handlerFailure).

(** A fetch that finds nothing new on two partitions. *)
Definition nothingNew : World :=
  mkWorld true true joinedGroup
    [delivered [mkBatch "topic-test" 0%Z 12%Z [];
                mkBatch "topic-test" 1%Z 7%Z []]].


(** A stopped runner that is started and fetches the batch [twoMessages]. *)
Definition startAndFetch : World :=
  mkWorld false false joinedGroup [quiet; quiet; delivered [twoMessages]].

(** The produce protocol over requests that record the version and the
    arguments they were built from. *)
Definition sampleProtocol (v : Z) :=
  Produce.protocol Z Z (list string) nat
    (string * option (option string) * Z * Z * option nat * list string) string
    (fun a t d => ("v0", None, a, t, None, d))
    (fun a t d => ("v1", None, a, t, None, d))
    (fun a t c d => ("v2", None, a, t, Some c, d))
    (fun i a t c d => ("v3", Some i, a, t, Some c, d))
    "response v0" "response v1" "response v2" "response v3" v.


(** What the fetch loop still does once the runner was stopped: it ends the
    cycle in flight and exits. *)
Definition shutdownEvent (ev : Event) : bool :=
  match ev with
  | EvEmit (FETCH _) | EvCommitOffsets None | EvHeartbeat _
  | EvConsuming false | EvSetImmediate | EvLog Debug _ => true
  | _ => false
  end.

(** [stop()] was called while the fetch of two messages was awaited. *)
Definition stoppedDuringFetch : World :=
  mkWorld false true joinedGroup [delivered [twoMessages]].

(** ** The scenarios of the specification *)

(** Happy message path: six handler calls, and the offset 2 committed for
    each of the three partitions. *)
Example scenario_happy_path :
  (fetch happyConfig happyPath).1.1 = Val tt /\
  length (List.filter isEachMessage (fetch happyConfig happyPath).2) = 6 /\
  map_to_list (committed (group (fetch happyConfig happyPath).1.2)) =
    [("t", 0%Z, 2%Z); ("t", 1%Z, 2%Z); ("t", 2%Z, 2%Z)].
Proof. vm_compute. repeat split; reflexivity. Qed.

(** Unknown member: the member id is cleared, the runner re-joins under the
    id that the coordinator hands out, the fetch loop goes on and the crash
    handler is not called. *)
Example scenario_unknown_member :
  (scheduleFetch liveConfig 1 fetchUnknownMember).2 =
    [EvConsuming true; EvFetch;
     EvLog LError
       "The coordinator is not aware of this member, re-joining the group";
     EvMemberIdNull; EvJoin; EvSync; EvRunning InJoin true true;
     EvEmit (GROUP_JOIN (Some "member-2"));
     EvLog Info "Consumer has joined the group";
     EvConsuming true; EvFetch; EvConsuming false] /\
  memberId (group (scheduleFetch liveConfig 1 fetchUnknownMember).1.2) =
    Some "member-2" /\
  List.filter isOnCrash (scheduleFetch liveConfig 1 fetchUnknownMember).2 = [].
Proof. vm_compute. repeat split; reflexivity. Qed.

(** Handler throws on the second message of three: the offsets up to 10
    are committed, that is, the committed offset is 11. *)
Example scenario_handler_throws :
  processEachMessage liveConfig failsAt11 threeMessages runningQuietly =
    (Exn handlerFailure,
     mkWorld true true
       (mkGroup (Some "member-1") {[ ("topic-test", 0%Z) := 10%Z ]}
          {[ ("topic-test", 0%Z) := 11%Z ]} ∅) [],
     [EvEachMessage "topic-test" 0 10; EvResolveOffset "topic-test" 0 10;
      EvHeartbeat 3000; EvCommitOffsetsIfNecessary;
      EvEachMessage "topic-test" 0 11;
      EvLog LError "Error when calling eachMessage"; EvCommitOffsets None]).
Proof. vm_compute. reflexivity. Qed.

(** A seek during an [eachBatch] handler that stops at once: the cycle
    still resolves the last offset of the batch and commits past it. *)
Example scenario_seek_during_eachBatch :
  (fetch seekedConfig
     (mkWorld true true joinedGroup [delivered [twoMessages]])).2 =
    [EvFetch; EvEmit (FETCH 1);
     EvEmit (START_BATCH_PROCESS (batchPayload twoMessages));
     EvEachBatch "topic-test" 0; EvResolveOffset "topic-test" 0 10;
     EvResolveOffset "topic-test" 0 11;
     EvEmit (END_BATCH_PROCESS (batchPayload twoMessages));
     EvCommitOffsets None; EvHeartbeat 3000] /\
  committed
    (group (fetch seekedConfig
              (mkWorld true true joinedGroup [delivered [twoMessages]])).1.2)
    !! ("topic-test", 0%Z) = Some 12%Z.
Proof. vm_compute. split; reflexivity. Qed.

(** In test mode [stop] does not wait for the cycle in flight. *)
Example scenario_stop_in_test_mode :
  (stop testConfig 0 stopWhileConsuming).1.1 = Val tt /\
  (stop testConfig 0 stopWhileConsuming).2 =
    [EvLog Debug "stop consumer group"; EvRunning InStop true false; EvLeave].
Proof. vm_compute. split; reflexivity. Qed.

(** ** Facts about the monad *)

Section MonadFacts.

Context {A B : Type}.

Lemma bind_inv (m : M A) (k : A -> M B) w r w' evs :
  bind m k w = (r, w', evs) ->
  (exists a w1 t1 t2,
      m w = (Val a, w1, t1) /\ k a w1 = (r, w', t2) /\ evs = t1 ++ t2) \/
  (exists e, m w = (Exn e, w', evs) /\ r = Exn e) \/
  (m w = (Pending, w', evs) /\ r = Pending).
Proof.
  unfold bind. destruct (m w) as [[[a|e|] w1] t1].
  - destruct (k a w1) as [[r2 w2] t2] eqn:Hk. intros [= <- <- <-].
    left. exists a, w1, t1, t2. by rewrite Hk.
  - intros [= <- <- <-]. right. left. by exists e.
  - intros [= <- <- <-]. right. by right.
Qed.

Lemma bind_exn (m : M A) (k : A -> M B) w e w1 t1 :
  m w = (Exn e, w1, t1) -> bind m k w = (Exn e, w1, t1).
Proof. unfold bind. by intros ->. Qed.

Lemma try_catch_inv (m : M A) (h : Error -> M A) w r w' evs :
  try_catch m h w = (r, w', evs) ->
  (exists e w1 t1 t2,
      m w = (Exn e, w1, t1) /\ h e w1 = (r, w', t2) /\ evs = t1 ++ t2) \/
  (m w = (r, w', evs) /\ forall e, r <> Exn e).
Proof.
  unfold try_catch. destruct (m w) as [[[a|e|] w1] t1].
  - intros [= <- <- <-]. by right.
  - destruct (h e w1) as [[r2 w2] t2] eqn:Hh. intros [= <- <- <-].
    left. exists e, w1, t1, t2. by rewrite Hh.
  - intros [= <- <- <-]. by right.
Qed.

Lemma reify_val_inv (m : M A) w r w' evs :
  reify m w = (Val r, w', evs) -> m w = (r, w', evs) /\ r <> Pending.
Proof.
  unfold reify. by destruct (m w) as [[[a|e|] w1] t1]; intros [= <- <- <-].
Qed.

Lemma reify_exn_inv (m : M A) w e w' evs :
  reify m w = (Exn e, w', evs) -> False.
Proof. unfold reify. by destruct (m w) as [[[a|e'|] w1] t1]. Qed.

End MonadFacts.

(** ** Awaited calls *)

Lemma suspend_received w : suspend w = (Val (received w), resumed w, []).
Proof. unfold resumed, received, suspend. by destruct (script w). Qed.

Lemma interfere_cursor acts w :
  resolved (group (interfere acts w)) = resolved (group w) /\
  committed (group (interfere acts w)) = committed (group w) /\
  script (interfere acts w) = script w.
Proof.
  revert w. induction acts as [|i acts IH]; intros w; [done |]. simpl.
  destruct (IH (interfere1 w i)) as (-> & -> & ->). by destruct i.
Qed.

Lemma resumed_cursor w :
  resolved (group (resumed w)) = resolved (group w) /\
  committed (group (resumed w)) = committed (group w).
Proof.
  unfold resumed, suspend. destruct (script w) as [|r rest]; [done |]. simpl.
  by destruct (interfere_cursor (r_during r) (set_script rest w)) as (-> & -> & _).
Qed.

Lemma resumed_answered w :
  answered (script w) ->
  r_failure (received w) = None /\ answered (script (resumed w)).
Proof.
  unfold resumed, received, suspend, answered.
  destruct (script w) as [|r rest] eqn:Hs; simpl.
  - intros _. rewrite Hs. split; [done | constructor].
  - intros H. inversion H as [|? ? Hr Hrest]; subst. split; [done |].
    by destruct (interfere_cursor (r_during r) (set_script rest w))
      as (_ & _ & ->).
Qed.

Lemma rpc_eq ev w :
  rpc ev w =
    (match r_failure (received w) with
     | Some e => Exn e
     | None => Val (received w)
     end, resumed w, [ev]).
Proof.
  unfold rpc, answer, bind at 1, log. simpl. unfold bind at 1.
  rewrite suspend_received. by destruct (r_failure (received w)).
Qed.

Lemma group_heartbeat_eq i w :
  group_heartbeat i w =
    (match r_failure (received w) with
     | Some e => Exn e
     | None => Val tt
     end, resumed w, [EvHeartbeat i]).
Proof.
  unfold group_heartbeat, bind at 1. rewrite rpc_eq.
  by destruct (r_failure (received w)).
Qed.

Lemma group_commitOffsets_eq w :
  group_commitOffsets None w =
    match r_failure (received w) with
    | Some e => (Exn e, resumed w, [EvCommitOffsets None])
    | None =>
        (Val tt, set_group (commit_resolved (group (resumed w))) (resumed w),
         [EvCommitOffsets None])
    end.
Proof.
  unfold group_commitOffsets, bind at 1. rewrite rpc_eq.
  by destruct (r_failure (received w)).
Qed.

Lemma group_commitOffsetsIfNecessary_eq w :
  group_commitOffsetsIfNecessary w =
    match r_failure (received w) with
    | Some e => (Exn e, resumed w, [EvCommitOffsetsIfNecessary])
    | None =>
        (Val tt,
         if r_due (received w)
         then set_group (commit_resolved (group (resumed w))) (resumed w)
         else resumed w,
         [EvCommitOffsetsIfNecessary])
    end.
Proof.
  unfold group_commitOffsetsIfNecessary, bind at 1. rewrite rpc_eq.
  destruct (r_failure (received w)); [done |].
  by destruct (r_due (received w)).
Qed.

(** ** The events of each operation *)

Section Emits.

Variable P : Event -> Prop.

Lemma emits_ret {A} (a : A) : emits P (ret a).
Proof. intros w. constructor. Qed.

Lemma emits_throw {A} e : emits P (@throw A e).
Proof. intros w. constructor. Qed.

Lemma emits_pending {A} : emits P (@pending A).
Proof. intros w. constructor. Qed.

Lemma emits_get {A} (f : World -> A) : emits P (get f).
Proof. intros w. constructor. Qed.

Lemma emits_modify f : emits P (modify f).
Proof. intros w. constructor. Qed.

Lemma emits_modify_group f : emits P (modify_group f).
Proof. intros w. constructor. Qed.

Lemma emits_suspend : emits P suspend.
Proof. intros w. unfold suspend. destruct (script w); constructor. Qed.

Lemma emits_log ev : P ev -> emits P (log ev).
Proof. intros H w. by repeat constructor. Qed.

Lemma emits_bind {A B} (m : M A) (k : A -> M B) :
  emits P m -> (forall a, emits P (k a)) -> emits P (bind m k).
Proof.
  intros Hm Hk w. unfold bind. specialize (Hm w).
  destruct (m w) as [[[a|e|] w1] t1]; simpl in *; try done.
  specialize (Hk a w1). destruct (k a w1) as [[r2 w2] t2]. simpl in *.
  by apply Forall_app.
Qed.

Lemma emits_try_catch {A} (m : M A) (h : Error -> M A) :
  emits P m -> (forall e, emits P (h e)) -> emits P (try_catch m h).
Proof.
  intros Hm Hh w. unfold try_catch. specialize (Hm w).
  destruct (m w) as [[[a|e|] w1] t1]; simpl in *; try done.
  specialize (Hh e w1). destruct (h e w1) as [[r2 w2] t2]. simpl in *.
  by apply Forall_app.
Qed.

Lemma emits_reify {A} (m : M A) : emits P m -> emits P (reify m).
Proof.
  intros Hm w. unfold reify. specialize (Hm w).
  by destruct (m w) as [[[a|e|] w1] t1].
Qed.

Lemma emits_attempt {A} (m : M A) : emits P m -> emits P (attempt m).
Proof.
  intros Hm. apply emits_try_catch.
  - apply emits_bind; [done | intros; apply emits_ret].
  - intros; apply emits_ret.
Qed.

Lemma emits_answer : emits P answer.
Proof.
  apply emits_bind; [apply emits_suspend |].
  intros r. destruct (r_failure r); [apply emits_throw | apply emits_ret].
Qed.

Lemma emits_rpc ev : P ev -> emits P (rpc ev).
Proof.
  intros H. apply emits_bind; [by apply emits_log |].
  intros _. apply emits_answer.
Qed.

Lemma emits_assign_running site b :
  (forall old, P (EvRunning site old b)) -> emits P (assign_running site b).
Proof. intros H w. by repeat constructor. Qed.

Lemma emits_assign_consuming b :
  P (EvConsuming b) -> emits P (assign_consuming b).
Proof. intros H w. by repeat constructor. Qed.

Lemma emits_retrier budget fn :
  (forall n, P (EvBackoff n)) -> (forall n, emits P (fn n)) ->
  forall retryCount, emits P (retrier budget retryCount fn).
Proof.
  intros Hb Hfn. induction budget as [|budget IH]; intros n; simpl.
  - apply emits_bind; [by apply emits_reify |].
    intros [[|e]|e|]; auto using emits_ret, emits_throw, emits_pending.
  - apply emits_bind; [by apply emits_reify |].
    intros [[|e]|e|]; auto using emits_ret, emits_throw, emits_pending.
    apply emits_bind; [by apply emits_log |]. intros _.
    apply emits_bind; [apply emits_suspend |]. intros _. apply IH.
Qed.

End Emits.

Create HintDb emits.

Ltac emits_go side :=
  repeat first
    [ solve [auto with emits]
    | apply emits_ret | apply emits_throw | apply emits_pending
    | apply emits_get | apply emits_modify_group | apply emits_modify
    | apply emits_suspend | apply emits_answer
    | apply emits_log; side
    | apply emits_rpc; side
    | apply emits_assign_consuming; side
    | apply emits_assign_running; intros ?; side
    | apply emits_bind; [| intros ?]
    | apply emits_try_catch; [| intros ?]
    | apply emits_attempt
    | apply emits_reify
    | match goal with
      | |- emits _ (if ?b then _ else _) => destruct b
      | |- emits _ (match ?x with _ => _ end) => destruct x
      end ].

(** The events of the operations, by what they may contain: the message
    path never calls the batch handler, and the operations below [join]
    never assign [running]. *)
Section OperationEvents.

Variable P : Event -> Prop.
Hypothesis HP :
  forall ev, writesRunning ev = false -> callsEachBatch ev = false -> P ev.
Variable cfg : Config.

Local Ltac side := first [apply HP; reflexivity | solve [auto with emits]].

Lemma emits_group_commitOffsets o : emits P (group_commitOffsets o).
Proof. unfold group_commitOffsets. emits_go side. Qed.
#[local] Hint Resolve emits_group_commitOffsets : emits.

Lemma emits_group_commitOffsetsIfNecessary :
  emits P group_commitOffsetsIfNecessary.
Proof. unfold group_commitOffsetsIfNecessary. emits_go side. Qed.
#[local] Hint Resolve emits_group_commitOffsetsIfNecessary : emits.

Lemma emits_group_heartbeat i : emits P (group_heartbeat i).
Proof. unfold group_heartbeat. emits_go side. Qed.
#[local] Hint Resolve emits_group_heartbeat : emits.

Lemma emits_group_resolveOffset t p o : emits P (group_resolveOffset t p o).
Proof. unfold group_resolveOffset. emits_go side. Qed.
#[local] Hint Resolve emits_group_resolveOffset : emits.

Lemma emits_group_leave : emits P group_leave.
Proof. unfold group_leave. emits_go side. Qed.
#[local] Hint Resolve emits_group_leave : emits.

Lemma emits_autoCommitOffsets : emits P (autoCommitOffsets cfg).
Proof.
  unfold autoCommitOffsets.
  destruct (autoCommit cfg); [apply emits_group_commitOffsets | apply emits_ret].
Qed.
#[local] Hint Resolve emits_autoCommitOffsets : emits.

Lemma emits_eachMessageLoop h t p ms : emits P (eachMessageLoop cfg h t p ms).
Proof.
  induction ms as [|m rest IH]; simpl; [apply emits_ret |].
  unfold callEachMessage.
  emits_go side.
Qed.
#[local] Hint Resolve emits_eachMessageLoop : emits.

(** From here on the batch handler may be called. *)
Hypothesis HB : forall t p, P (EvEachBatch t p).

Lemma emits_runEachBatch t p prog : emits P (runEachBatch cfg t p prog).
Proof.
  induction prog as [|e|o k IH|k IH|offs k IH|k IH|k IH|k IH|d k IH]; simpl;
    emits_go side.
Qed.
#[local] Hint Resolve emits_runEachBatch : emits.

Lemma emits_processEachBatch h batch : emits P (processEachBatch cfg h batch).
Proof.
  unfold processEachBatch.
  emits_go side.
Qed.
#[local] Hint Resolve emits_processEachBatch : emits.

Lemma emits_onBatch batch : emits P (onBatch cfg batch).
Proof.
  unfold onBatch, processEachMessage.
  emits_go side.
Qed.
#[local] Hint Resolve emits_onBatch : emits.

Lemma emits_awaitAll batches : emits P (awaitAll cfg batches).
Proof.
  induction batches as [|b rest IH]; simpl; [apply emits_ret |].
  unfold batchTask. emits_go side.
Qed.
#[local] Hint Resolve emits_awaitAll : emits.

Lemma emits_fetch_resume : emits P (fetch_resume cfg).
Proof.
  unfold fetch_resume, group_fetch_answer.
  emits_go side.
Qed.
#[local] Hint Resolve emits_fetch_resume : emits.

Lemma emits_fetch : emits P (fetch cfg).
Proof. unfold fetch. emits_go side. Qed.
#[local] Hint Resolve emits_fetch : emits.

Lemma emits_scheduleWait fuel : emits P (scheduleWait fuel).
Proof. induction fuel as [|fuel IH]; simpl; emits_go side; done. Qed.
#[local] Hint Resolve emits_scheduleWait : emits.

Lemma emits_waitForConsumer fuel : emits P (waitForConsumer fuel).
Proof. unfold waitForConsumer. emits_go side. Qed.
#[local] Hint Resolve emits_waitForConsumer : emits.

(** From [join] on, [running] is assigned. *)
Hypothesis HJ : forall old, P (EvRunning InJoin old true).

Lemma emits_join : emits P (join cfg).
Proof.
  unfold join. apply emits_retrier; [intros; side |].
  intros n. unfold join_attempt, group_join, group_sync.
  emits_go side.
Qed.
#[local] Hint Resolve emits_join : emits.

Lemma emits_onFetchError e : emits P (onFetchError cfg e).
Proof. unfold onFetchError. emits_go side. Qed.
#[local] Hint Resolve emits_onFetchError : emits.

Lemma emits_cycle_resume : emits P (cycle_resume cfg).
Proof.
  unfold cycle_resume. emits_go side.
Qed.
#[local] Hint Resolve emits_cycle_resume : emits.

Lemma emits_scheduleFetch_enter : emits P scheduleFetch_enter.
Proof. unfold scheduleFetch_enter. emits_go side. Qed.
#[local] Hint Resolve emits_scheduleFetch_enter : emits.

Lemma emits_afterAttempt again budget retryCount r :
  (forall b n, emits P (again b n)) ->
  emits P (afterAttempt cfg again budget retryCount r).
Proof.
  intros Hagain. destruct r as [[| | |e]|e|]; simpl;
    [| | | |destruct budget|]; emits_go side.
Qed.

Lemma emits_scheduleFetch_resume fuel :
  forall budget retryCount,
    emits P (scheduleFetch_resume cfg fuel budget retryCount).
Proof.
  induction fuel as [|fuel IH]; intros budget n; simpl; [apply emits_pending |].
  apply emits_bind; [apply emits_reify, emits_cycle_resume |].
  intros r. by apply emits_afterAttempt.
Qed.
#[local] Hint Resolve emits_scheduleFetch_resume : emits.

Lemma emits_scheduleFetch fuel : emits P (scheduleFetch cfg fuel).
Proof.
  unfold scheduleFetch.
  apply emits_bind; [apply emits_scheduleFetch_enter |].
  intros [|]; [apply emits_scheduleFetch_resume | apply emits_ret].
Qed.
#[local] Hint Resolve emits_scheduleFetch : emits.

Hypothesis HS : forall old, P (EvRunning InStart old true).

Lemma emits_start fuel : emits P (start cfg fuel).
Proof. unfold start. emits_go side. Qed.

End OperationEvents.

(** ** The [running] flag *)

Lemma filter_writesRunning_nil evs :
  Forall (runningWrite [] true) evs -> List.filter writesRunning evs = [].
Proof.
  induction 1 as [|ev evs Hev _ IH]; [done |]. simpl.
  destruct ev; simpl in *; try done. by destruct Hev.
Qed.

Lemma runningWrite_other sites b ev :
  writesRunning ev = false -> callsEachBatch ev = false ->
  runningWrite sites b ev.
Proof. by destruct ev. Qed.

Lemma stop_events cfg fuel w :
  (stop cfg fuel w).2 =
    if running w
    then EvLog Debug "stop consumer group" :: EvRunning InStop true false ::
         (try_catch
            ((if isTestMode cfg then ret tt else waitForConsumer fuel) ;;
             group_leave)
            (fun _ => ret tt) (set_running false w)).2
    else [].
Proof.
  unfold stop, bind at 1, get. destruct (running w) eqn:Hr; simpl; [| done].
  unfold bind at 1. simpl. unfold bind at 1, assign_running. rewrite Hr.
  by destruct (try_catch _ _ _) as [[r w1] t1].
Qed.

Lemma join_attempt_returned n w w' t :
  join_attempt n w = (Val Returned, w', t) -> running w' = true.
Proof.
  unfold join_attempt. intros H.
  apply try_catch_inv in H as [(e & w1 & t1 & t2 & _ & Hh & _) | [Htry _]].
  - unfold bind, log, ret, throw in Hh. destruct (isRebalancing e); simplify_eq.
  - apply bind_inv in Htry
      as [(a & w2 & t3 & t4 & _ & Hrest & _) | [(e & _ & ?) | [_ ?]]];
      [| done | done].
    apply bind_inv in Hrest
      as [(a' & w3 & t5 & t6 & _ & Hrest & _) | [(e & _ & ?) | [_ ?]]];
      [| done | done].
    unfold bind, assign_running, get, log, ret in Hrest. by simplify_eq.
Qed.

Lemma retrier_join_returns budget :
  forall n w w' t,
    retrier budget n join_attempt w = (Val tt, w', t) -> running w' = true.
Proof.
  induction budget as [|budget IH]; intros n w w' t Hrun; simpl in Hrun;
    apply bind_inv in Hrun
      as [(r & w2 & t2 & t3 & Hre & Hrest & _) | [(e & _ & ?) | [_ ?]]];
    try done;
    apply reify_val_inv in Hre as [Hat _];
    destruct r as [[|e0]|e0|]; unfold ret, throw, pending in Hrest;
    try (simplify_eq; by eapply join_attempt_returned); try by simplify_eq.
  apply bind_inv in Hrest
    as [(? & w3 & t4 & t5 & _ & Hrest & _) | [(e & _ & ?) | [_ ?]]];
    [| done | done].
  apply bind_inv in Hrest
    as [(? & w4 & t6 & t7 & _ & Hrest & _) | [(e & _ & ?) | [_ ?]]];
    [| done | done].
  by eapply IH.
Qed.

(** Claim C4, as the code has it: [running] is assigned at three places
    only.  [join] sets it to true (line 52), whether it is called by [start]
    or by the re-join of the fetch loop, and a [join] that returns leaves it
    true; [start] sets it to true after [join] (line 88); [stop] clears it
    (line 105), once when the runner is running and not at all otherwise.
    A fetch cycle never assigns it. *)
Theorem running_assigned_by_join_start_stop cfg fuel w :
  Forall (runningWrite [InJoin] true) (join cfg w).2 /\
  (forall w' evs, join cfg w = (Val tt, w', evs) -> running w' = true) /\
  Forall (runningWrite [InJoin; InStart] true) (start cfg fuel w).2 /\
  Forall (runningWrite [InJoin] true) (scheduleFetch cfg fuel w).2 /\
  Forall (runningWrite [] true) (fetch cfg w).2 /\
  List.filter writesRunning (stop cfg fuel w).2 =
    (if running w then [EvRunning InStop true false] else []).
Proof.
  split; [| split; [| repeat split]].
  - apply emits_join; [apply runningWrite_other | simpl; auto ..].
  - intros w' evs Hj. by eapply retrier_join_returns.
  - apply emits_start; [apply runningWrite_other | simpl; auto ..].
  - apply emits_scheduleFetch; [apply runningWrite_other | simpl; auto ..].
  - apply emits_fetch; [apply runningWrite_other | done].
  - rewrite stop_events. destruct (running w); [| done]. simpl. f_equal.
    apply filter_writesRunning_nil.
    apply emits_try_catch; [| intros; apply emits_ret].
    apply emits_bind.
    + destruct (isTestMode cfg); [apply emits_ret |].
      apply emits_waitForConsumer; [apply runningWrite_other | done].
    + intros _. apply emits_group_leave, runningWrite_other.
Qed.

Lemma running_assigned_by_join_start_stop_witness :
  join liveConfig stopDuringRejoin =
    (Val tt,
     mkWorld true false joinedGroup
       [rejected rebalanceInProgress;
        mkResponse [IRunning false] None [] "" false; quiet],
     [EvJoin; EvSync; EvRunning InJoin false true;
      EvEmit (GROUP_JOIN (Some "member-1"));
      EvLog Info "Consumer has joined the group"]) /\
  running
    (mkWorld true false joinedGroup
       [rejected rebalanceInProgress;
        mkResponse [IRunning false] None [] "" false; quiet]) = true.
Proof.
  split; [vm_compute; reflexivity |].
  apply (running_assigned_by_join_start_stop liveConfig 0 stopDuringRejoin)
    with (evs := [EvJoin; EvSync; EvRunning InJoin false true;
                  EvEmit (GROUP_JOIN (Some "member-1"));
                  EvLog Info "Consumer has joined the group"]).
  vm_compute. reflexivity.
Defined.

(** Claim C4 as stated fails: in this run [running] does not rise at most
    once.  It rises twice, the second time in the re-join made by the fetch
    loop after [stop] cleared it. *)
Lemma running_rises_twice :
  List.filter risingEdge (start (messageConfig true) 1 stopDuringRejoin).2 =
    [EvRunning InJoin false true; EvRunning InJoin false true] /\
  ~ length
      (List.filter risingEdge
         (start (messageConfig true) 1 stopDuringRejoin).2) <= 1.
Proof. vm_compute. split; [reflexivity | lia]. Qed.

(** ** The crash handler *)

Lemma interfere_leavesRunning acts w :
  forallb leavesRunning acts = true ->
  running (interfere acts w) = running w /\
  script (interfere acts w) = script w.
Proof.
  revert w. induction acts as [|i acts IH]; intros w H; [done |].
  simpl in H. apply andb_prop in H as [Hi Hacts]. simpl.
  destruct (IH (interfere1 w i) Hacts) as [-> ->].
  by destruct i.
Qed.

Lemma suspend_undisturbed w :
  undisturbed (script w) ->
  running (suspend w).1.2 = running w /\ undisturbed (script (suspend w).1.2).
Proof.
  unfold suspend. destruct (script w) as [|r rest] eqn:Hs.
  { simpl. intros _. rewrite Hs. split; [done | constructor]. }
  intros H. inversion H as [|? ? Hr Hrest]; subst. simpl.
  destruct (interfere_leavesRunning (r_during r) (set_script rest w) Hr)
    as [-> ->].
  done.
Qed.

Section Keeps.

Variable I : World -> Prop.

Lemma keeps_ret {A} (a : A) : keeps I (ret a).
Proof. by intros w. Qed.

Lemma keeps_throw {A} e : keeps I (@throw A e).
Proof. by intros w. Qed.

Lemma keeps_log ev : keeps I (log ev).
Proof. by intros w. Qed.

Lemma keeps_bind {A B} (m : M A) (k : A -> M B) :
  keeps I m -> (forall a, keeps I (k a)) -> keeps I (bind m k).
Proof.
  intros Hm Hk w Hw. unfold bind. specialize (Hm w Hw).
  destruct (m w) as [[[a|e|] w1] t1]; simpl in *; try done.
  specialize (Hk a w1 Hm). by destruct (k a w1) as [[r2 w2] t2].
Qed.

Lemma keeps_answer : keeps I suspend -> keeps I answer.
Proof.
  intros Hs. apply keeps_bind; [done |].
  intros r. destruct (r_failure r); [apply keeps_throw | apply keeps_ret].
Qed.

Lemma keeps_rpc ev : keeps I suspend -> keeps I (rpc ev).
Proof.
  intros Hs. apply keeps_bind; [apply keeps_log |].
  intros _. by apply keeps_answer.
Qed.

End Keeps.

(** While no other task assigns [running], the calls on the collaborator
    leave it as it is. *)
Lemma stays_suspend b : keeps (stays b) suspend.
Proof.
  intros w [Hr Hs]. destruct (suspend_undisturbed w Hs) as [Hr' Hs'].
  split; congruence.
Qed.

Lemma stays_modify_group b f : keeps (stays b) (modify_group f).
Proof. by intros w [Hr Hs]. Qed.

Lemma stays_group_join b : keeps (stays b) group_join.
Proof.
  apply keeps_bind; [apply keeps_rpc, stays_suspend |].
  intros r. apply stays_modify_group.
Qed.

Lemma stays_group_sync b : keeps (stays b) group_sync.
Proof.
  apply keeps_bind; [apply keeps_rpc, stays_suspend |].
  intros r. apply keeps_ret.
Qed.

(** An attempt of [join] that does not return leaves [running] alone. *)
Lemma join_attempt_stays b n w :
  stays b w ->
  (join_attempt n w).1.1 = Val Returned \/ stays b (join_attempt n w).1.2.
Proof.
  intros Hw. destruct (join_attempt n w) as [[r w'] t] eqn:E. simpl.
  unfold join_attempt in E.
  apply try_catch_inv in E as [(e & w1 & t1 & t2 & Htry & Hh & ->) | [Htry Hne]].
  - right. assert (stays b w1) as Hw1.
    { apply bind_inv in Htry
        as [(a & w2 & t3 & t4 & Hj & Hrest & ->) | [(e' & Hj & _) | [_ ?]]];
        [| | done].
      - pose proof (stays_group_join b w Hw) as Hw2. rewrite Hj in Hw2.
        apply bind_inv in Hrest
          as [(a' & w3 & t5 & t6 & Hsy & Hrest & ->) | [(e' & Hsy & _) | [_ ?]]];
          [| | done].
        + by vm_compute in Hrest.
        + pose proof (stays_group_sync b w2 Hw2) as Hw3. by rewrite Hsy in Hw3.
      - pose proof (stays_group_join b w Hw) as Hw2. by rewrite Hj in Hw2. }
    destruct (isRebalancing e).
    + by injection Hh as <- <- <-.
    + by injection Hh as <- <- <-.
  - apply bind_inv in Htry
      as [(a & w2 & t3 & t4 & Hj & Hrest & ->) | [(e' & _ & ->) | [Hj ->]]].
    + pose proof (stays_group_join b w Hw) as Hw2. rewrite Hj in Hw2.
      apply bind_inv in Hrest
        as [(a' & w3 & t5 & t6 & Hsy & Hrest & ->) | [(e' & _ & ->) | [Hsy ->]]].
      * left. by injection Hrest as <- <- <-.
      * by destruct (Hne e').
      * right. pose proof (stays_group_sync b w2 Hw2) as Hw3.
        by rewrite Hsy in Hw3.
    + by destruct (Hne e').
    + right. pose proof (stays_group_join b w Hw) as Hw2. by rewrite Hj in Hw2.
Qed.

Lemma retrier_join_fails b budget :
  forall n w e w1 t1,
    retrier budget n join_attempt w = (Exn e, w1, t1) ->
    stays b w -> stays b w1.
Proof.
  induction budget as [|budget IH]; intros n w e w1 t1 Hrun Hw; simpl in Hrun;
    apply bind_inv in Hrun
      as [(r & w2 & t2 & t3 & Hre & Hrest & ->) | [(e' & Hre & _) | [_ ?]]];
    try done;
    try (by apply reify_exn_inv in Hre);
    apply reify_val_inv in Hre as [Hat _];
    pose proof (join_attempt_stays b n w Hw) as Hst; rewrite Hat in Hst;
    simpl in Hst; destruct Hst as [-> | Hst]; try discriminate.
  - destruct r as [[|e0]|e0|]; unfold ret, throw, pending in Hrest;
      by simplify_eq.
  - destruct r as [[|e0]|e0|]; unfold ret, throw, pending in Hrest;
      try by simplify_eq.
    apply bind_inv in Hrest
      as [(? & w3 & t4 & t5 & Hlog & Hrest & ->) | [(e' & Hlog & _) | [Hlog _]]];
      try discriminate.
    injection Hlog as <- <- <-.
    apply bind_inv in Hrest
      as [(? & w4 & t6 & t7 & Hsu & Hrest & ->) | [(e' & Hsu & _) | [Hsu _]]].
    + pose proof (stays_suspend b _ Hst) as Hw4. rewrite Hsu in Hw4.
      by eapply IH.
    + unfold suspend in Hsu. by destruct (script _).
    + unfold suspend in Hsu. by destruct (script _).
Qed.

Lemma join_fails_undisturbed cfg w e w1 t1 :
  join cfg w = (Exn e, w1, t1) -> undisturbed (script w) ->
  running w1 = running w.
Proof.
  intros Hj Hs.
  by destruct (retrier_join_fails (running w) _ _ _ _ _ _ Hj (conj eq_refl Hs)).
Qed.

(** ** The error taxonomy of the fetch loop *)

Lemma onFetchError_eq cfg e w :
  onFetchError cfg e w =
    if negb (running w) then
      (Val Exited, w, [EvLog Debug "consumer not running, exiting"])
    else if isRebalancing e then
      thenReenter [EvLog LError "The group is rebalancing, re-joining"]
        (join cfg w)
    else if String.eqb (errType e) "UNKNOWN_MEMBER_ID" then
      thenReenter
        [EvLog LError
           "The coordinator is not aware of this member, re-joining the group";
         EvMemberIdNull]
        (join cfg (set_group (set_memberId None (group w)) w))
    else if String.eqb (errName e) "KafkaJSOffsetOutOfRange" then
      (Val Reenter, w, [])
    else if String.eqb (errName e) "KafkaJSNotImplemented" then
      (Val (Bail e), w, [EvBail e])
    else
      (Exn e, w, [EvLog Debug "Error while fetching data, trying again..."]).
Proof.
  unfold onFetchError, bind at 1, get. simpl.
  destruct (running w); simpl; [| done].
  destruct (isRebalancing e).
  { unfold bind, log, thenReenter. simpl.
    by destruct (join cfg w) as [[[[]|e'|] w1] t1]; simpl; rewrite ?app_nil_r. }
  destruct (String.eqb (errType e) "UNKNOWN_MEMBER_ID").
  { unfold bind, log, thenReenter, modify_group, modify. simpl.
    by destruct (join cfg _) as [[[[]|e'|] w1] t1]; simpl; rewrite ?app_nil_r. }
  destruct (String.eqb (errName e) "KafkaJSOffsetOutOfRange"); [done |].
  by destruct (String.eqb (errName e) "KafkaJSNotImplemented").
Qed.

Lemma cycle_resume_eq cfg w :
  cycle_resume cfg w =
    match fetch_resume cfg w with
    | (Val _, w1, t1) =>
        (Val Cycled, set_consuming false w1,
         t1 ++ [EvConsuming false; EvSetImmediate])
    | (Exn e, w1, t1) => after t1 (onFetchError cfg e w1)
    | (Pending, w1, t1) => (Pending, w1, t1)
    end.
Proof.
  unfold cycle_resume, try_catch, bind at 1.
  destruct (fetch_resume cfg w) as [[[[]|e|] w1] t1]; simpl; try done.
  unfold after. by destruct (onFetchError cfg e w1) as [[r w2] t2].
Qed.

Lemma scheduleFetch_resume_step cfg fuel budget retryCount w r w1 t1 :
  cycle_resume cfg w = (r, w1, t1) ->
  scheduleFetch_resume cfg (S fuel) budget retryCount w =
    after t1
      (afterAttempt cfg (scheduleFetch_resume cfg fuel) budget retryCount r w1).
Proof.
  intros H. simpl. unfold bind at 1, reify, after. rewrite H.
  destruct r as [s|e|];
    [by destruct (afterAttempt cfg _ budget retryCount _ w1) as [[r2 w2] t2] ..
    | by rewrite app_nil_r].
Qed.

(** Claim C2: the [catch] block of [scheduleFetch] classifies the error of a
    fetch cycle in this order: not running, REBALANCE_IN_PROGRESS or
    NOT_COORDINATOR_FOR_GROUP, UNKNOWN_MEMBER_ID, KafkaJSOffsetOutOfRange,
    KafkaJSNotImplemented, anything else.  A clean exit ends the loop; the
    two re-joining cases call [join] (the second after clearing the member
    id) and then re-enter, as the swallowed error does at once; [bail] ends
    in the crash handler; a re-thrown error goes through the backoff of the
    retrier to the next attempt, and to the crash handler when the retries
    are used up. *)
Theorem scheduleFetch_error_taxonomy cfg again budget retryCount e w :
  cycle_resume cfg w =
    match fetch_resume cfg w with
    | (Val _, w1, t1) =>
        (Val Cycled, set_consuming false w1,
         t1 ++ [EvConsuming false; EvSetImmediate])
    | (Exn e, w1, t1) => after t1 (onFetchError cfg e w1)
    | (Pending, w1, t1) => (Pending, w1, t1)
    end /\
  onFetchError cfg e w =
    (if negb (running w) then
       (Val Exited, w, [EvLog Debug "consumer not running, exiting"])
     else if isRebalancing e then
       thenReenter [EvLog LError "The group is rebalancing, re-joining"]
         (join cfg w)
     else if String.eqb (errType e) "UNKNOWN_MEMBER_ID" then
       thenReenter
         [EvLog LError
            "The coordinator is not aware of this member, re-joining the group";
          EvMemberIdNull]
         (join cfg (set_group (set_memberId None (group w)) w))
     else if String.eqb (errName e) "KafkaJSOffsetOutOfRange" then
       (Val Reenter, w, [])
     else if String.eqb (errName e) "KafkaJSNotImplemented" then
       (Val (Bail e), w, [EvBail e])
     else
       (Exn e, w, [EvLog Debug "Error while fetching data, trying again..."])) /\
  afterAttempt cfg again budget retryCount (Val Exited) w =
    (Val tt, set_consuming false w, [EvConsuming false]) /\
  afterAttempt cfg again budget retryCount (Val Reenter) w =
    (if running w then
       after [EvConsuming true; EvFetch; EvConsuming false]
         (again (retries cfg) 0 (set_consuming false w))
     else
       (Val tt, set_consuming false w,
        [EvLog Debug "consumer not running, exiting"; EvConsuming false])) /\
  afterAttempt cfg again budget retryCount (Val (Bail e)) w =
    (Val tt, set_consuming false w, [EvConsuming false; EvOnCrash e]) /\
  afterAttempt cfg again (S budget) retryCount (Exn e) w =
    after [EvConsuming false; EvBackoff retryCount]
      ((suspend ;; assign_consuming true ;; log EvFetch ;;
        again budget (S retryCount)) (set_consuming false w)) /\
  afterAttempt cfg again 0 retryCount (Exn e) w =
    (Val tt, set_consuming false w, [EvConsuming false; EvOnCrash e]).
Proof.
  split; [apply cycle_resume_eq |]. split; [apply onFetchError_eq |].
  repeat split.
  - simpl. unfold scheduleFetch_enter, bind, get, after. simpl.
    destruct (running w) eqn:Hr; simpl; [| done].
    by destruct (again _ _ _) as [[r2 w2] t2].
  - simpl. unfold bind at 1. simpl. unfold bind at 1. simpl. unfold after.
    by destruct (bind suspend _ _) as [[r2 w2] t2].
Qed.

(** ** What the crash handler finds *)

Lemma start_join_fails cfg fuel w e w1 t1 :
  running w = false -> join cfg w = (Exn e, w1, t1) ->
  start cfg fuel w = (Val tt, w1, t1 ++ [EvOnCrash e]).
Proof.
  intros Hr Hj. unfold start, bind at 1, get. rewrite Hr. simpl.
  unfold bind at 1, reify. rewrite (bind_exn _ _ _ _ _ _ Hj). done.
Qed.

Lemma cycle_resume_bail cfg w e w1 t1 :
  cycle_resume cfg w = (Val (Bail e), w1, t1) -> running w1 = true.
Proof.
  rewrite cycle_resume_eq.
  destruct (fetch_resume cfg w) as [[[[]|e0|] w0] t0]; try done.
  rewrite onFetchError_eq. unfold after, thenReenter.
  destruct (running w0) eqn:Hr; simpl; [| done].
  destruct (isRebalancing e0).
  { by destruct (join cfg w0) as [[[[]|?|] ?] ?]. }
  destruct (String.eqb (errType e0) "UNKNOWN_MEMBER_ID").
  { by destruct (join cfg _) as [[[[]|?|] ?] ?]. }
  destruct (String.eqb (errName e0) "KafkaJSOffsetOutOfRange"); [done |].
  destruct (String.eqb (errName e0) "KafkaJSNotImplemented"); [| done].
  intros [= <- <- <-]. done.
Qed.

Lemma cycle_resume_rethrown cfg w e w0 t0 e1 w1 t1 :
  fetch_resume cfg w = (Exn e, w0, t0) ->
  isRebalancing e = false -> errType e <> "UNKNOWN_MEMBER_ID" ->
  cycle_resume cfg w = (Exn e1, w1, t1) ->
  e1 = e /\ running w1 = true.
Proof.
  intros Hf Hreb Hunk. rewrite cycle_resume_eq, Hf, onFetchError_eq, Hreb.
  apply String.eqb_neq in Hunk. rewrite Hunk. unfold after.
  destruct (running w0) eqn:Hr; simpl; [| done].
  destruct (String.eqb (errName e) "KafkaJSOffsetOutOfRange"); [done |].
  destruct (String.eqb (errName e) "KafkaJSNotImplemented"); [done |].
  intros [= <- <- <-]. done.
Qed.

(** Claim C5, as the code has it.  When [onCrash] fires because the [join]
    of [start] failed, the Runner has not set [running]: it is false as it
    was, unless another task assigned it.  When it fires from the fetch loop,
    by [bail] or because the retries of a re-thrown fetch error are used up,
    the [catch] block has just found [running] true and the Runner does not
    clear it: it is true when the crash handler is called. *)
Theorem crash_leaves_running_as_found cfg fuel budget retryCount w e w1 t1 :
  (running w = false -> undisturbed (script w) ->
   join cfg w = (Exn e, w1, t1) ->
   start cfg fuel w = (Val tt, w1, t1 ++ [EvOnCrash e]) /\
   running w1 = false) /\
  (cycle_resume cfg w = (Val (Bail e), w1, t1) ->
   scheduleFetch_resume cfg (S fuel) budget retryCount w =
     (Val tt, set_consuming false w1, t1 ++ [EvConsuming false; EvOnCrash e]) /\
   running (set_consuming false w1) = true) /\
  (forall w0 t0,
      fetch_resume cfg w = (Exn e, w0, t0) ->
      isRebalancing e = false -> errType e <> "UNKNOWN_MEMBER_ID" ->
      cycle_resume cfg w = (Exn e, w1, t1) ->
      scheduleFetch_resume cfg (S fuel) 0 retryCount w =
        (Val tt, set_consuming false w1,
         t1 ++ [EvConsuming false; EvOnCrash e]) /\
      running (set_consuming false w1) = true).
Proof.
  split; [| split].
  - intros Hr Hs Hj. split; [by apply start_join_fails |].
    rewrite <- Hr. by eapply join_fails_undisturbed.
  - intros Hc. split.
    + by rewrite (scheduleFetch_resume_step _ _ _ _ _ _ _ _ Hc).
    + simpl. by eapply cycle_resume_bail.
  - intros w0 t0 Hf Hreb Hunk Hc. split.
    + by rewrite (scheduleFetch_resume_step _ _ _ _ _ _ _ _ Hc).
    + simpl. by eapply (cycle_resume_rethrown cfg w e w0 t0 e w1 t1).
Qed.

Lemma crash_leaves_running_as_found_witness :
  (start (messageConfig true) 1 joinFails =
     (Val tt, mkWorld false false joinedGroup [],
      [EvJoin; EvBail handlerFailure] ++ [EvOnCrash handlerFailure]) /\
   running (mkWorld false false joinedGroup []) = false) /\
  (scheduleFetch_resume (messageConfig true) 1 5 0 fetchNotImplemented =
     (Val tt, set_consuming false (mkWorld true false joinedGroup []),
      [EvBail notImplemented] ++ [EvConsuming false; EvOnCrash notImplemented]) /\
   running (set_consuming false (mkWorld true false joinedGroup [])) = true) /\
  (scheduleFetch_resume (messageConfig true) 1 0 5 fetchFails =
     (Val tt, set_consuming false (mkWorld true false joinedGroup []),
      [EvLog Debug "Error while fetching data, trying again..."] ++
      [EvConsuming false; EvOnCrash handlerFailure]) /\
   running (set_consuming false (mkWorld true false joinedGroup [])) = true).
Proof.
  split; [| split].
  - apply (crash_leaves_running_as_found (messageConfig true) 0 0 0 joinFails
             handlerFailure (mkWorld false false joinedGroup [])
             [EvJoin; EvBail handlerFailure]).
    + reflexivity.
    + repeat constructor.
    + vm_compute. reflexivity.
  - apply (crash_leaves_running_as_found (messageConfig true) 0 5 0
             fetchNotImplemented notImplemented
             (mkWorld true false joinedGroup []) [EvBail notImplemented]).
    vm_compute. reflexivity.
  - apply (crash_leaves_running_as_found (messageConfig true) 0 0 5 fetchFails
             handlerFailure (mkWorld true false joinedGroup [])
             [EvLog Debug "Error while fetching data, trying again..."])
      with (w0 := mkWorld true false joinedGroup []) (t0 := []).
    + vm_compute. reflexivity.
    + reflexivity.
    + discriminate.
    + vm_compute. reflexivity.
Defined.

(** Claim C5 as stated fails: the fetch is rejected with
    KafkaJSNotImplemented and the crash handler is called, but the runner is
    not left with [running] false. *)
Lemma crash_with_running_set :
  scheduleFetch (messageConfig true) 1 fetchNotImplemented =
    (Val tt, mkWorld true false joinedGroup [],
     [EvConsuming true; EvFetch; EvBail notImplemented; EvConsuming false;
      EvOnCrash notImplemented]) /\
  ~ (In (EvOnCrash notImplemented)
       (scheduleFetch (messageConfig true) 1 fetchNotImplemented).2 ->
     running (scheduleFetch (messageConfig true) 1 fetchNotImplemented).1.2 =
       false).
Proof.
  split; [vm_compute; reflexivity |].
  intros H. assert (true = false) as Habs; [| discriminate Habs].
  apply H. vm_compute. auto 10.
Qed.

(** ** Stopping *)

Lemma scheduleWait_eq fuel : forall w,
  consuming w = true ->
  scheduleWait fuel w =
    match firstQuiet fuel w with
    | Some n => (Val tt, afterPolls n w, polls n)
    | None => (Pending, afterPolls fuel w, polls fuel)
    end.
Proof.
  induction fuel as [|fuel IH]; intros w Hc; simpl; rewrite Hc; simpl; [done |].
  unfold bind at 1. simpl. unfold bind at 1. simpl. unfold bind at 1.
  rewrite suspend_received. simpl.
  unfold bind at 1, get. simpl.
  destruct (consuming (resumed w)) eqn:Hc'; simpl.
  - rewrite (IH _ Hc').
    destruct (firstQuiet fuel (resumed w)) as [n|]; simpl; done.
  - destruct fuel; simpl; by rewrite Hc'.
Qed.

Lemma waitForConsumer_eq fuel w :
  waitForConsumer fuel w =
    match firstQuiet fuel w with
    | Some n => (Val tt, afterPolls n w, polls n)
    | None => (Pending, afterPolls fuel w, polls fuel)
    end.
Proof.
  unfold waitForConsumer, bind, get. simpl.
  destruct (consuming w) eqn:Hc; simpl.
  - rewrite (scheduleWait_eq fuel w Hc).
    by destruct (firstQuiet fuel w) as [n|].
  - destruct fuel; simpl; by rewrite Hc.
Qed.

Lemma firstQuiet_Some fuel : forall w n,
  firstQuiet fuel w = Some n ->
  n <= fuel /\ consuming (afterPolls n w) = false /\
  forall k, k < n -> consuming (afterPolls k w) = true.
Proof.
  induction fuel as [|fuel IH]; intros w n; simpl;
    destruct (consuming w) eqn:Hc; simpl; intros Hn; simplify_eq.
  - split; [lia |]. split; [done |]. intros k Hk. lia.
  - destruct (firstQuiet fuel (resumed w)) as [m|] eqn:Hm;
      simpl in Hn; simplify_eq.
    destruct (IH _ _ Hm) as (Hle & Hq & Hbusy). simpl.
    split; [lia |]. split; [done |].
    intros [|k] Hk; [done |]. simpl. apply Hbusy. lia.
  - split; [lia |]. split; [done |]. intros k Hk. lia.
Qed.

Lemma firstQuiet_enough fuel : forall w n,
  n <= fuel -> consuming (afterPolls n w) = false ->
  is_Some (firstQuiet fuel w).
Proof.
  induction fuel as [|fuel IH]; intros w n Hle Hq; simpl;
    destruct (consuming w) eqn:Hc; simpl; eauto.
  - assert (n = 0) as -> by lia. simpl in Hq. congruence.
  - destruct n as [|n]; [simpl in Hq; congruence |]. simpl in Hq.
    destruct (IH (resumed w) n ltac:(lia) Hq) as [m ->]. by eexists.
Qed.

Lemma group_leave_eq w :
  exists r, group_leave w = (r, resumed w, [EvLeave]) /\ r <> Pending.
Proof.
  unfold group_leave, bind at 1. rewrite rpc_eq.
  destruct (r_failure (received w)); simpl; eauto.
Qed.

Lemma stop_eq cfg fuel w :
  stop cfg fuel w =
    if negb (running w) then (Val tt, w, [])
    else if isTestMode cfg then
      (Val tt, resumed (set_running false w),
       [EvLog Debug "stop consumer group"; EvRunning InStop true false;
        EvLeave])
    else
      match firstQuiet fuel (set_running false w) with
      | Some n =>
          (Val tt, resumed (afterPolls n (set_running false w)),
           [EvLog Debug "stop consumer group"; EvRunning InStop true false] ++
           polls n ++ [EvLeave])
      | None =>
          (Pending, afterPolls fuel (set_running false w),
           [EvLog Debug "stop consumer group"; EvRunning InStop true false] ++
           polls fuel)
      end.
Proof.
  unfold stop, bind at 1, get. simpl.
  destruct (running w) eqn:Hr; simpl; [| done].
  unfold bind at 1. simpl. unfold bind at 1, assign_running. rewrite Hr. simpl.
  unfold try_catch, bind at 1.
  destruct (isTestMode cfg).
  - simpl. destruct (group_leave_eq (set_running false w)) as [r [-> Hp]].
    by destruct r as [[]|e|].
  - rewrite waitForConsumer_eq.
    destruct (firstQuiet fuel (set_running false w)) as [n|]; [| done].
    destruct (group_leave_eq (afterPolls n (set_running false w)))
      as [r [-> Hp]].
    destruct r as [[]|e|]; simpl; rewrite ?app_nil_r; done.
Qed.

(** Claim C6: [stop] never throws.  When the runner is not running it
    returns at once and changes nothing.  Otherwise it clears [running];
    outside test mode it then polls [consuming] with a timer of one second
    for as long as it is true, and only when a poll has found it false does
    it tell the group to leave; in test mode it does so at once.  Whatever
    the wait or [leave] raise is swallowed.  A [stop] that waits returns as
    soon as [consuming] falls. *)
Theorem stop_is_best_effort cfg fuel w :
  (forall e, (stop cfg fuel w).1.1 <> Exn e) /\
  stop cfg fuel w =
    (if negb (running w) then (Val tt, w, [])
     else if isTestMode cfg then
       (Val tt, resumed (set_running false w),
        [EvLog Debug "stop consumer group"; EvRunning InStop true false;
         EvLeave])
     else
       match firstQuiet fuel (set_running false w) with
       | Some n =>
           (Val tt, resumed (afterPolls n (set_running false w)),
            [EvLog Debug "stop consumer group"; EvRunning InStop true false] ++
            polls n ++ [EvLeave])
       | None =>
           (Pending, afterPolls fuel (set_running false w),
            [EvLog Debug "stop consumer group"; EvRunning InStop true false] ++
            polls fuel)
       end) /\
  (forall n,
      firstQuiet fuel (set_running false w) = Some n ->
      consuming (afterPolls n (set_running false w)) = false /\
      forall k, k < n -> consuming (afterPolls k (set_running false w)) = true) /\
  (forall n,
      n <= fuel -> consuming (afterPolls n (set_running false w)) = false ->
      (stop cfg fuel w).1.1 = Val tt).
Proof.
  split; [| split; [apply stop_eq | split]].
  - intros e. rewrite stop_eq.
    destruct (negb (running w)); [done |].
    destruct (isTestMode cfg); [done |].
    by destruct (firstQuiet fuel (set_running false w)).
  - intros n Hn. by destruct (firstQuiet_Some _ _ _ Hn) as (_ & ? & ?).
  - intros n Hle Hq. rewrite stop_eq.
    destruct (negb (running w)); [done |].
    destruct (isTestMode cfg); [done |].
    by destruct (firstQuiet_enough fuel _ n Hle Hq) as [m ->].
Qed.

Lemma stop_is_best_effort_witness :
  firstQuiet 5 (set_running false stopWhileConsuming) = Some 2 /\
  consuming (afterPolls 2 (set_running false stopWhileConsuming)) = false /\
  (forall k, k < 2 ->
     consuming (afterPolls k (set_running false stopWhileConsuming)) = true) /\
  (stop liveConfig 5 stopWhileConsuming).1.1 = Val tt.
Proof.
  split; [reflexivity |].
  destruct (stop_is_best_effort liveConfig 5 stopWhileConsuming)
    as (_ & _ & Hquiet & Hreturns).
  split; [| split].
  - apply (Hquiet 2). reflexivity.
  - apply (Hquiet 2). reflexivity.
  - apply (Hreturns 2); [lia | reflexivity].
Defined.

(** ** Dispatch to the handlers *)

(** Claim C10: for a non-empty batch taken up while running, the
    [eachMessage] handler is used whenever it is configured, and then the
    [eachBatch] handler is never called, configured or not; with neither
    handler the batch is skipped, between the START_BATCH_PROCESS and
    END_BATCH_PROCESS events that are emitted all the same. *)
Theorem handler_dispatch_precedence cfg batch w :
  running w = true -> isEmpty batch = false ->
  match eachMessage cfg, eachBatch cfg with
  | Some hm, _ =>
      batchTask cfg batch w =
        after [EvEmit (START_BATCH_PROCESS (batchPayload batch))]
          ((processEachMessage cfg hm batch ;;
            log (EvEmit (END_BATCH_PROCESS (batchPayload batch)))) w) /\
      Forall (fun ev => callsEachBatch ev = false) (batchTask cfg batch w).2
  | None, Some hb =>
      batchTask cfg batch w =
        after [EvEmit (START_BATCH_PROCESS (batchPayload batch))]
          ((processEachBatch cfg hb batch ;;
            log (EvEmit (END_BATCH_PROCESS (batchPayload batch)))) w)
  | None, None =>
      batchTask cfg batch w =
        (Val tt, w,
         [EvEmit (START_BATCH_PROCESS (batchPayload batch));
          EvEmit (END_BATCH_PROCESS (batchPayload batch))])
  end.
Proof.
  intros Hr He.
  assert (batchTask cfg batch w = onBatch cfg batch w) as Htask.
  { unfold batchTask, bind, get. simpl. rewrite Hr, He. simpl.
    destruct (onBatch cfg batch w) as [[r w1] t1].
    by destruct r as [[]|e|]. }
  rewrite Htask. unfold onBatch.
  destruct (eachMessage cfg) as [hm|]; [split | destruct (eachBatch cfg) as [hb|]].
  - unfold bind at 1, log at 1, after.
    by destruct (bind _ _ w) as [[r w1] t1].
  - apply emits_bind; [by apply emits_log |]. intros _.
    apply emits_bind; [| intros _; by apply emits_log].
    apply emits_eachMessageLoop. auto.
  - unfold bind at 1, log at 1, after.
    by destruct (bind _ _ w) as [[r w1] t1].
  - done.
Qed.

Lemma handler_dispatch_precedence_witness :
  (batchTask bothHandlers twoMessages runningQuietly =
     after [EvEmit (START_BATCH_PROCESS (batchPayload twoMessages))]
       ((processEachMessage bothHandlers okHandler twoMessages ;;
         log (EvEmit (END_BATCH_PROCESS (batchPayload twoMessages))))
          runningQuietly) /\
   Forall (fun ev => callsEachBatch ev = false)
     (batchTask bothHandlers twoMessages runningQuietly).2) /\
  batchTask noHandler twoMessages runningQuietly =
    (Val tt, runningQuietly,
     [EvEmit (START_BATCH_PROCESS (batchPayload twoMessages));
      EvEmit (END_BATCH_PROCESS (batchPayload twoMessages))]).
Proof.
  split.
  - apply (handler_dispatch_precedence bothHandlers twoMessages runningQuietly);
      reflexivity.
  - apply (handler_dispatch_precedence noHandler twoMessages runningQuietly);
      reflexivity.
Defined.

(** ** Stale batches *)

(** Claim C7, as the code has it.  [processEachMessage] leaves a batch alone
    whose partition has a pending seek offset: the loop breaks before the
    handler is called, nothing is resolved and no commit is issued.
    [processEachBatch] does not test staleness: the handler is called and
    sees [isStale()] true, and when it has returned the last offset of the
    batch is resolved if and only if [eachBatchAutoResolve] is set. *)
Theorem stale_batch_handling cfg batch w :
  hasSeekOffset (topic batch) (partition batch) (group w) = true ->
  (forall hm, processEachMessage cfg hm batch w = (Val tt, w, [])) /\
  (forall k,
      runEachBatch cfg (topic batch) (partition batch) (BIsStale k) w =
      runEachBatch cfg (topic batch) (partition batch) (k true) w) /\
  (forall hb w1 t1,
      (log (EvEachBatch (topic batch) (partition batch)) ;;
       runEachBatch cfg (topic batch) (partition batch) (hb batch)) w =
        (Val tt, w1, t1) ->
      processEachBatch cfg hb batch w =
        if eachBatchAutoResolve cfg then
          after t1
            (group_resolveOffset (topic batch) (partition batch)
               (lastOffset batch) w1)
        else (Val tt, w1, t1 ++ [])).
Proof.
  intros Hseek. repeat split.
  - intros hm. unfold processEachMessage.
    destruct (messages batch) as [|m rest]; [done |]. simpl.
    unfold bind, get. simpl. rewrite Hseek. by rewrite orb_true_r.
  - intros k. simpl. unfold bind, get. simpl. rewrite Hseek.
    destruct (runEachBatch _ _ _ _ _) as [[r w1] t1]. by destruct r.
  - intros hb w1 t1 Hrun. unfold processEachBatch, bind at 1, try_catch.
    rewrite Hrun. by destruct (eachBatchAutoResolve cfg).
Qed.

Lemma stale_batch_handling_witness :
  processEachMessage liveConfig okHandler twoMessages seekPending =
    (Val tt, seekPending, []) /\
  processEachBatch (batchConfig false) returnIfStale twoMessages seekPending =
    (Val tt, seekPending, [EvEachBatch "topic-test" 0%Z] ++ []).
Proof.
  split.
  - apply (stale_batch_handling liveConfig twoMessages seekPending).
    reflexivity.
  - apply (stale_batch_handling (batchConfig false) twoMessages seekPending
             eq_refl).
    reflexivity.
Defined.

(** Claim C7 as stated fails under [processEachBatch]: the partition has a
    pending seek offset, the handler returns at once, and yet the last
    offset of the batch is resolved, and committed by the commit that ends
    the cycle. *)
Lemma stale_batch_is_resolved :
  ~ (hasSeekOffset "topic-test" 0 (group seekPending) = true ->
     resolved
       (group (processEachBatch (batchConfig true) returnIfStale twoMessages
                 seekPending).1.2) !! ("topic-test", 0%Z) =
       resolved (group seekPending) !! ("topic-test", 0%Z)) /\
  hasSeekOffset "topic-test" 0%Z (group seekPending) = true /\
  ((processEachBatch (batchConfig true) returnIfStale twoMessages ;;
    autoCommitOffsets (batchConfig true)) seekPending).2 =
    [EvEachBatch "topic-test" 0; EvResolveOffset "topic-test" 0 11;
     EvCommitOffsets None] /\
  resolved (group seekPending) !! ("topic-test", 0%Z) = None /\
  resolved
    (group
       ((processEachBatch (batchConfig true) returnIfStale twoMessages ;;
         autoCommitOffsets (batchConfig true)) seekPending).1.2)
    !! ("topic-test", 0%Z) = Some 11%Z /\
  committed
    (group
       ((processEachBatch (batchConfig true) returnIfStale twoMessages ;;
         autoCommitOffsets (batchConfig true)) seekPending).1.2)
    !! ("topic-test", 0%Z) = Some 12%Z.
Proof.
  split; [| vm_compute; repeat split; reflexivity].
  intros H. specialize (H eq_refl). vm_compute in H. discriminate H.
Qed.

(** ** Commits without [autoCommit] *)

Lemma autoCommitOffsets_off cfg w :
  autoCommit cfg = false -> autoCommitOffsets cfg w = (Val tt, w, []).
Proof. unfold autoCommitOffsets. by intros ->. Qed.

(** Claim C3 does not hold of [processEachMessage]: with [autoCommit] off it
    still calls [commitOffsetsIfNecessary] after every message, which
    commits when the thresholds are met, and [commitOffsets] when the
    handler throws. *)
Theorem autoCommit_off_still_commits :
  autoCommit (messageConfig false) = false /\
  (processEachMessage (messageConfig false) okHandler twoMessages commitDue).2 =
    [EvEachMessage "topic-test" 0 10; EvResolveOffset "topic-test" 0 10;
     EvHeartbeat 3000; EvCommitOffsetsIfNecessary;
     EvEachMessage "topic-test" 0 11; EvResolveOffset "topic-test" 0 11;
     EvHeartbeat 3000; EvCommitOffsetsIfNecessary] /\
  committed
    (group (processEachMessage (messageConfig false) okHandler twoMessages
              commitDue).1.2) !! ("topic-test", 0%Z) = Some 11%Z /\
  (processEachMessage (messageConfig false) failsAt11 twoMessages
     runningQuietly).2 =
    [EvEachMessage "topic-test" 0 10; EvResolveOffset "topic-test" 0 10;
     EvHeartbeat 3000; EvCommitOffsetsIfNecessary;
     EvEachMessage "topic-test" 0 11;
     EvLog LError "Error when calling eachMessage"; EvCommitOffsets None] /\
  committed
    (group (processEachMessage (messageConfig false) failsAt11 twoMessages
              runningQuietly).1.2) !! ("topic-test", 0%Z) = Some 11%Z.
Proof. vm_compute. repeat split; reflexivity. Qed.

(** ** The concurrency limiter *)

Module ConcurrencyFacts.

Import Concurrency.

Lemma release_length task l :
  existsb (Nat.eqb task) l = true -> S (length (release task l)) = length l.
Proof.
  induction l as [|t l IH]; simpl; [done |].
  rewrite (Nat.eqb_sym task t). destruct (t =? task); simpl; [done |].
  intros H. by rewrite (IH H).
Qed.

Lemma started_app h1 h2 : started (h1 ++ h2) = started h1 ++ started h2.
Proof. unfold started. by rewrite flat_map_app. Qed.

Lemma calls_app a1 a2 : calls (a1 ++ a2) = calls a1 ++ calls a2.
Proof. unfold calls. by rewrite flat_map_app. Qed.

Lemma calls_map_Call tasks : calls (map Call tasks) = tasks.
Proof. induction tasks as [|t tasks IH]; simpl; by rewrite ?IH. Qed.

Lemma step_limit l a : limit (step l a) = limit l.
Proof.
  destruct a as [task|task s]; simpl.
  - unfold call. by destruct (_ <? _).
  - unfold complete. destruct (existsb _ _); [| done].
    unfold next. simpl. by destruct (waiting l).
Qed.

Lemma step_invariant acts l a :
  invariant acts l -> invariant (acts ++ [a]) (step l a).
Proof.
  intros [Hb Hf Ho]. destruct a as [task|task s]; simpl.
  - unfold call. destruct (length (inFlight l) <? limit l) eqn:Hlt.
    + apply Nat.ltb_lt in Hlt.
      destruct Hf as [Hw | Hfull]; [| lia].
      split; simpl.
      * rewrite length_app. simpl. lia.
      * by left.
      * rewrite started_app, calls_app, <- Ho, Hw. simpl.
        by rewrite !app_nil_r.
    + apply Nat.ltb_ge in Hlt. split; simpl.
      * done.
      * right. lia.
      * by rewrite calls_app, <- Ho, app_assoc.
  - unfold complete. destruct (existsb (Nat.eqb task) (inFlight l)) eqn:Hin.
    + pose proof (release_length _ _ Hin) as Hlen.
      unfold next. simpl.
      destruct (waiting l) as [|u rest] eqn:Hw; split; simpl.
      * lia.
      * by left.
      * rewrite started_app, calls_app, <- Ho. simpl. by rewrite !app_nil_r.
      * rewrite length_app. simpl. lia.
      * right. rewrite length_app. simpl.
        destruct Hf as [? | Hfull]; [done | lia].
      * rewrite !started_app, calls_app, <- Ho. simpl.
        by rewrite !app_nil_r, <- app_assoc.
    + split; simpl; [done | done |].
      by rewrite calls_app, <- Ho, app_nil_r.
Qed.

Lemma run_invariant n acts : invariant acts (run n acts).
Proof.
  induction acts as [|a acts IH] using rev_ind.
  - split; simpl; [lia | by left | done].
  - unfold run in *. rewrite fold_left_app. simpl. by apply step_invariant.
Qed.

Lemma run_limit n acts : limit (run n acts) = n.
Proof.
  induction acts as [|a acts IH] using rev_ind; [done |].
  unfold run in *. rewrite fold_left_app. simpl. by rewrite step_limit.
Qed.

Lemma complete_in_flight task s l :
  existsb (Nat.eqb task) (inFlight l) = true ->
  history (complete task s l) =
    history l ++ Settled task s :: map Started (take 1 (waiting l)) /\
  inFlight (complete task s l) =
    release task (inFlight l) ++ take 1 (waiting l) /\
  waiting (complete task s l) = drop 1 (waiting l).
Proof.
  intros Hin. unfold complete. rewrite Hin. unfold next. simpl.
  destruct (waiting l) as [|u rest]; simpl.
  - by rewrite app_nil_r.
  - by rewrite <- app_assoc.
Qed.

Lemma serial_oneByOne settled : serial (oneByOne settled).
Proof.
  induction settled as [|[t s] settled IH]; simpl; by constructor.
Qed.

Lemma serial_oneByOne_started settled task :
  serial (oneByOne settled ++ [Started task]).
Proof.
  induction settled as [|[t s] settled IH]; simpl; by constructor.
Qed.

Lemma oneByOne_app s1 s2 : oneByOne (s1 ++ s2) = oneByOne s1 ++ oneByOne s2.
Proof. unfold oneByOne. by rewrite flat_map_app. Qed.

(** With one slot, the history is that of tasks run one after the other,
    followed by the start of the task in flight, if any. *)
Lemma step_one_slot l a :
  limit l = 1 ->
  (exists settled,
      history l = oneByOne settled ++ map Started (inFlight l)) ->
  length (inFlight l) <= 1 ->
  exists settled,
    history (step l a) = oneByOne settled ++ map Started (inFlight (step l a)).
Proof.
  intros Hl [settled Hh] Hb. destruct a as [task|task s]; simpl.
  - unfold call. rewrite Hl.
    destruct (length (inFlight l) <? 1) eqn:Hlt; simpl; [| by exists settled].
    exists settled. rewrite Hh, map_app. simpl. by rewrite <- app_assoc.
  - unfold complete. destruct (existsb (Nat.eqb task) (inFlight l)) eqn:Hin;
      [| by exists settled].
    destruct (inFlight l) as [|t [|t' rest]] eqn:Hfl; simpl in *;
      [done | | lia].
    rewrite orb_false_r in Hin. apply Nat.eqb_eq in Hin as ->.
    rewrite Nat.eqb_refl. unfold next. simpl.
    exists (settled ++ [(t, s)]). rewrite oneByOne_app, Hh. simpl.
    destruct (waiting l) as [|u rest]; simpl;
      by rewrite <- ?app_assoc.
Qed.

Lemma run_one_slot acts :
  exists settled,
    history (run 1 acts) = oneByOne settled ++ map Started (inFlight (run 1 acts)).
Proof.
  induction acts as [|a acts IH] using rev_ind; [by exists [] |].
  unfold run in *. rewrite fold_left_app. simpl.
  apply step_one_slot; [apply (run_limit 1) | done |].
  pose proof (inv_bound _ _ (run_invariant 1 acts)) as Hb.
  by rewrite (run_limit 1) in Hb.
Qed.

Lemma run_serial acts : serial (history (run 1 acts)).
Proof.
  destruct (run_one_slot acts) as [settled ->].
  pose proof (inv_bound _ _ (run_invariant 1 acts)) as Hb.
  rewrite (run_limit 1) in Hb.
  destruct (inFlight (run 1 acts)) as [|t [|t' rest]]; simpl in *.
  - rewrite app_nil_r. apply serial_oneByOne.
  - apply serial_oneByOne_started.
  - lia.
Qed.

Lemma fetchLimiter_run cfg batches completions :
  fetchLimiter cfg batches completions =
    run (partitionsConsumedConcurrently cfg)
      (map Call (seq 0 (length batches)) ++ completions).
Proof. done. Qed.

(** Claim C9: during one fetch cycle at most
    [partitionsConsumedConcurrently] tasks are in flight, whatever the order
    in which tasks settle; the tasks are started in the order in which they
    were handed in, the rest waiting in that order; a task that rejects
    frees its slot and the oldest waiting task starts in the same step, the
    rejection settling the future as it is; with a limit of one the tasks
    run strictly one after the other. *)
Theorem limiter_contract cfg batches completions :
  length (inFlight (fetchLimiter cfg batches completions)) <=
    partitionsConsumedConcurrently cfg /\
  started (history (fetchLimiter cfg batches completions)) ++
    waiting (fetchLimiter cfg batches completions) =
    seq 0 (length batches) ++ calls completions /\
  (forall task e,
      existsb (Nat.eqb task)
        (inFlight (fetchLimiter cfg batches completions)) = true ->
      history (step (fetchLimiter cfg batches completions)
                 (Complete task (Rejected e))) =
        history (fetchLimiter cfg batches completions) ++
        Settled task (Rejected e) ::
        map Started (take 1 (waiting (fetchLimiter cfg batches completions))) /\
      inFlight (step (fetchLimiter cfg batches completions)
                  (Complete task (Rejected e))) =
        release task (inFlight (fetchLimiter cfg batches completions)) ++
        take 1 (waiting (fetchLimiter cfg batches completions)) /\
      waiting (step (fetchLimiter cfg batches completions)
                 (Complete task (Rejected e))) =
        drop 1 (waiting (fetchLimiter cfg batches completions))) /\
  (partitionsConsumedConcurrently cfg = 1 ->
   serial (history (fetchLimiter cfg batches completions))).
Proof.
  rewrite fetchLimiter_run.
  destruct (run_invariant (partitionsConsumedConcurrently cfg)
              (map Call (seq 0 (length batches)) ++ completions))
    as [Hb _ Ho].
  rewrite run_limit in Hb. repeat split.
  - done.
  - by rewrite Ho, calls_app, calls_map_Call.
  - by apply complete_in_flight.
  - by apply complete_in_flight.
  - by apply complete_in_flight.
  - intros ->. apply run_serial.
Qed.

Lemma limiter_contract_witness :
  (history (step (fetchLimiter liveConfig [twoMessages; threeMessages] [])
              (Complete 0 (Rejected handlerFailure))) =
     history (fetchLimiter liveConfig [twoMessages; threeMessages] []) ++
     Settled 0 (Rejected handlerFailure) ::
     map Started
       (take 1 (waiting (fetchLimiter liveConfig [twoMessages; threeMessages] []))) /\
   inFlight (step (fetchLimiter liveConfig [twoMessages; threeMessages] [])
               (Complete 0 (Rejected handlerFailure))) =
     release 0 (inFlight (fetchLimiter liveConfig [twoMessages; threeMessages] [])) ++
     take 1 (waiting (fetchLimiter liveConfig [twoMessages; threeMessages] [])) /\
   waiting (step (fetchLimiter liveConfig [twoMessages; threeMessages] [])
              (Complete 0 (Rejected handlerFailure))) =
     drop 1 (waiting (fetchLimiter liveConfig [twoMessages; threeMessages] []))) /\
  serial (history (fetchLimiter liveConfig [twoMessages; threeMessages]
                     [Complete 0 (Rejected handlerFailure)])).
Proof.
  split.
  - apply (limiter_contract liveConfig [twoMessages; threeMessages] []).
    reflexivity.
  - apply (limiter_contract liveConfig [twoMessages; threeMessages]
             [Complete 0 (Rejected handlerFailure)]).
    reflexivity.
Defined.

End ConcurrencyFacts.

(** ** A handler error in [processEachMessage] *)

Lemma commit_resolved_lookup g tp :
  committed (commit_resolved g) !! tp =
    match resolved g !! tp with
    | Some o => Some (Z.succ o)
    | None => committed g !! tp
    end.
Proof.
  unfold commit_resolved. simpl. rewrite lookup_union, lookup_fmap.
  by destruct (resolved g !! tp), (committed g !! tp).
Qed.

Lemma cursorBelow_commit t p k g :
  cursorBelow t p k g -> cursorBelow t p k (commit_resolved g).
Proof.
  intros [Hr Hc]. split; [done |].
  intros c. rewrite commit_resolved_lookup.
  destruct (resolved g !! (t, p)) as [o|] eqn:Ho; [| apply Hc].
  intros [= <-]. specialize (Hr o eq_refl). lia.
Qed.

Lemma cursorBelow_same t p k g g' :
  resolved g' = resolved g -> committed g' = committed g ->
  cursorBelow t p k g -> cursorBelow t p k g'.
Proof. unfold cursorBelow. by intros -> ->. Qed.

Lemma commit_then_throw_eq e w :
  (group_commitOffsets None ;; @throw unit e) w =
    match r_failure (received w) with
    | Some e' => (Exn e', resumed w, [EvCommitOffsets None])
    | None =>
        (Exn e, set_group (commit_resolved (group (resumed w))) (resumed w),
         [EvCommitOffsets None])
    end.
Proof.
  unfold bind. rewrite group_commitOffsets_eq.
  by destruct (r_failure (received w)).
Qed.

Lemma eachMessageLoop_cons cfg h t p m rest w :
  eachMessageLoop cfg h t p (m :: rest) w =
    if negb (running w) || hasSeekOffset t p (group w) then (Val tt, w, [])
    else
      match h_error (h t p m) with
      | Some e =>
          after (EvEachMessage t p (offset m) :: eachMessageErrorLog e)
            ((group_commitOffsets None ;; throw e)
               (interfere (h_during (h t p m)) w))
      | None =>
          after [EvEachMessage t p (offset m)]
            ((group_resolveOffset t p (offset m) ;;
              group_heartbeat (heartbeatInterval cfg) ;;
              group_commitOffsetsIfNecessary ;;
              eachMessageLoop cfg h t p rest)
               (interfere (h_during (h t p m)) w))
      end.
Proof.
  simpl. unfold bind at 1, get. simpl. unfold bind at 1. simpl.
  destruct (negb (running w) || hasSeekOffset t p (group w)); [done |].
  unfold bind at 1, try_catch, callEachMessage, bind at 1, log, modify.
  simpl. unfold bind at 1. simpl. unfold after, eachMessageErrorLog.
  destruct (h_error (h t p m)) as [e|]; simpl.
  - unfold bind at 1.
    destruct (negb (isKafkaJSError e)); simpl; rewrite commit_then_throw_eq;
      by destruct (r_failure (received _)).
  - by destruct (bind (group_resolveOffset _ _ _) _ _) as [[r w1] t1].
Qed.

(** What follows a message that the handler accepted: the offset is
    resolved, then comes a heartbeat, then the commit if the thresholds are
    met, and then [k], the rest of the loop. *)
Lemma after_message_eq t p o i (k : M unit) w :
  (group_resolveOffset t p o ;; group_heartbeat i ;;
   group_commitOffsetsIfNecessary ;; k) w =
    let w2 := set_group (set_resolved (<[(t, p) := o]> (resolved (group w)))
                           (group w)) w in
    match r_failure (received w2) with
    | Some e => (Exn e, resumed w2, [EvResolveOffset t p o; EvHeartbeat i])
    | None =>
        match r_failure (received (resumed w2)) with
        | Some e =>
            (Exn e, resumed (resumed w2),
             [EvResolveOffset t p o; EvHeartbeat i; EvCommitOffsetsIfNecessary])
        | None =>
            after
              [EvResolveOffset t p o; EvHeartbeat i; EvCommitOffsetsIfNecessary]
              (k (if r_due (received (resumed w2))
                  then set_group
                         (commit_resolved (group (resumed (resumed w2))))
                         (resumed (resumed w2))
                  else resumed (resumed w2)))
        end
    end.
Proof.
  unfold bind at 1, group_resolveOffset, bind at 1, log, modify_group, modify.
  simpl. unfold bind at 1. rewrite group_heartbeat_eq.
  destruct (r_failure (received _)) as [e|]; [done |].
  unfold bind at 1. rewrite group_commitOffsetsIfNecessary_eq.
  destruct (r_failure (received (resumed _))) as [e|]; [done |].
  unfold after. by destruct (k _) as [[r w1] t1].
Qed.

Lemma after_message_cursor t p o w k :
  (o < k)%Z -> cursorBelow t p o (group w) ->
  let w2 := set_group (set_resolved (<[(t, p) := o]> (resolved (group w)))
                         (group w)) w in
  cursorBelow t p k (group (resumed (resumed w2))) /\
  cursorBelow t p k
    (commit_resolved (group (resumed (resumed w2)))).
Proof.
  intros Hlt [Hr Hc] w2.
  assert (cursorBelow t p k (group w2)) as Hw2.
  { split; simpl.
    - intros o'. rewrite lookup_insert_eq. intros [= <-]. done.
    - intros c Hcc. specialize (Hc c Hcc). lia. }
  destruct (resumed_cursor w2) as [Hr2 Hc2].
  destruct (resumed_cursor (resumed w2)) as [Hr3 Hc3].
  assert (cursorBelow t p k (group (resumed (resumed w2)))) as Hw4.
  { eapply cursorBelow_same; [| | exact Hw2]; congruence. }
  split; [done | by apply cursorBelow_commit].
Qed.

Lemma eachMessageLoop_handler_error cfg h t p ms :
  forall w m e,
    StronglySorted Z.lt (map offset ms) ->
    (forall m', In m' ms -> cursorBelow t p (offset m') (group w)) ->
    In m ms -> h_error (h t p m) = Some e ->
    In (EvEachMessage t p (offset m)) (eachMessageLoop cfg h t p ms w).2 ->
    (exists pre,
        (eachMessageLoop cfg h t p ms w).2 =
          pre ++ EvEachMessage t p (offset m) ::
          eachMessageErrorLog e ++ [EvCommitOffsets None]) /\
    (exists e', (eachMessageLoop cfg h t p ms w).1.1 = Exn e') /\
    cursorBelow t p (offset m) (group (eachMessageLoop cfg h t p ms w).1.2) /\
    (answered (script w) ->
     (eachMessageLoop cfg h t p ms w).1.1 = Exn e /\
     forall o,
       resolved (group (eachMessageLoop cfg h t p ms w).1.2) !! (t, p) = Some o ->
       committed (group (eachMessageLoop cfg h t p ms w).1.2) !! (t, p) =
         Some (Z.succ o)).
Proof.
  induction ms as [|m0 rest IH]; intros w m e Hsort Hcur Hin He Hev;
    [destruct Hin |].
  rewrite eachMessageLoop_cons in Hev |- *.
  destruct (negb (running w) || hasSeekOffset t p (group w));
    [destruct Hev |].
  inversion Hsort as [|x l Hsort' Hlt]; subst.
  assert (forall m', In m' rest -> (offset m0 < offset m')%Z) as Hlt'.
  { intros m' Hm'. rewrite List.Forall_forall in Hlt. apply Hlt.
    by apply in_map. }
  pose proof (interfere_cursor (h_during (h t p m0)) w) as (Hr1 & Hc1 & Hs1).
  set (w1 := interfere (h_during (h t p m0)) w) in *.
  assert (forall m', In m' (m0 :: rest) ->
            cursorBelow t p (offset m') (group w1)) as Hcur1.
  { intros m' Hm'. eapply cursorBelow_same; [exact Hr1 | exact Hc1 | auto]. }
  destruct (h_error (h t p m0)) as [e0|] eqn:He0.
  - (* the handler rejects the first message *)
    rewrite commit_then_throw_eq in Hev |- *.
    assert (m = m0) as ->.
    { destruct Hin as [<- | Hin]; [done |]. exfalso.
      assert (offset m = offset m0) as Heq.
      { unfold eachMessageErrorLog in Hev.
        destruct (r_failure (received w1)), (negb (isKafkaJSError e0));
          simpl in Hev; intuition congruence. }
      specialize (Hlt' m Hin). lia. }
    assert (e0 = e) as -> by congruence.
    destruct (resumed_cursor w1) as [Hr2 Hc2].
    assert (cursorBelow t p (offset m0) (group (resumed w1))) as Hcw.
    { eapply cursorBelow_same; [exact Hr2 | exact Hc2 |].
      apply Hcur1. by left. }
    destruct (r_failure (received w1)) as [e'|] eqn:Hfail; simpl.
    + split; [by exists [] |]. split; [by exists e' |]. split; [done |].
      intros Hans. rewrite <- Hs1 in Hans.
      destruct (resumed_answered w1 Hans) as [Hnone _]. congruence.
    + split; [by exists [] |]. split; [by exists e |].
      split; [by apply cursorBelow_commit |].
      intros _. split; [done |].
      intros o Ho. simpl in Ho |- *. rewrite lookup_union, lookup_fmap, Ho.
      by destruct (committed _ !! _).
  - (* the handler accepts it *)
    assert (In m rest) as Hin'.
    { destruct Hin as [<- | Hin]; [congruence | done]. }
    assert (offset m <> offset m0) as Hne.
    { specialize (Hlt' m Hin'). lia. }
    rewrite after_message_eq in Hev |- *. cbv zeta in Hev |- *.
    set (w2 := set_group _ w1) in *.
    destruct (r_failure (received w2)) as [e1|] eqn:Hf1.
    { simpl in Hev. intuition congruence. }
    destruct (r_failure (received (resumed w2))) as [e2|] eqn:Hf2.
    { simpl in Hev. intuition congruence. }
    set (w4 := if r_due (received (resumed w2)) then _ else _) in *.
    assert (In (EvEachMessage t p (offset m))
              (eachMessageLoop cfg h t p rest w4).2) as Hev'.
    { simpl in Hev. intuition congruence. }
    assert (forall m', In m' rest -> cursorBelow t p (offset m') (group w4))
      as Hcur4.
    { intros m' Hm'.
      destruct (after_message_cursor t p (offset m0) w1 (offset m')
                  (Hlt' m' Hm') (Hcur1 m0 (or_introl eq_refl))) as [Ha Hb].
      subst w4. by destruct (r_due _). }
    destruct (IH w4 m e Hsort' Hcur4 Hin' He Hev')
      as ((pre & Hpre) & (e' & He') & Hcw & Hans).
    simpl. split; [| split; [| split]].
    + exists (EvEachMessage t p (offset m0) :: EvResolveOffset t p (offset m0) ::
              EvHeartbeat (heartbeatInterval cfg) ::
              EvCommitOffsetsIfNecessary :: pre).
      by rewrite Hpre.
    + by exists e'.
    + done.
    + intros Hw. apply Hans.
      rewrite <- Hs1 in Hw.
      assert (answered (script w2)) as Hw2 by done.
      destruct (resumed_answered w2 Hw2) as [_ Hw3].
      destruct (resumed_answered (resumed w2) Hw3) as [_ Hw4].
      subst w4. by destruct (r_due _).
Qed.

(** Claim C1: when the handler throws on the message at offset [k] of a
    batch, [processEachMessage] calls [commitOffsets()] and throws, nothing
    else happening in between but the log of an error that is not a
    KafkaJSError.  The batch has increasing offsets and the cursor of its
    partition lies below them when it is taken up; then only offsets before
    [k] are resolved and the committed offset is not past [k], and when the
    collaborator rejects no call, the error thrown is the handler's and the
    committed offset is the one that follows the last resolved offset. *)
Theorem handler_error_commits_resolved cfg h batch w m e :
  StronglySorted Z.lt (map offset (messages batch)) ->
  (forall m', In m' (messages batch) ->
     cursorBelow (topic batch) (partition batch) (offset m') (group w)) ->
  In m (messages batch) ->
  h_error (h (topic batch) (partition batch) m) = Some e ->
  In (EvEachMessage (topic batch) (partition batch) (offset m))
    (processEachMessage cfg h batch w).2 ->
  (exists pre,
      (processEachMessage cfg h batch w).2 =
        pre ++ EvEachMessage (topic batch) (partition batch) (offset m) ::
        eachMessageErrorLog e ++ [EvCommitOffsets None]) /\
  (exists e', (processEachMessage cfg h batch w).1.1 = Exn e') /\
  cursorBelow (topic batch) (partition batch) (offset m)
    (group (processEachMessage cfg h batch w).1.2) /\
  (answered (script w) ->
   (processEachMessage cfg h batch w).1.1 = Exn e /\
   forall o,
     resolved (group (processEachMessage cfg h batch w).1.2)
       !! (topic batch, partition batch) = Some o ->
     committed (group (processEachMessage cfg h batch w).1.2)
       !! (topic batch, partition batch) = Some (Z.succ o)).
Proof. unfold processEachMessage. apply eachMessageLoop_handler_error. Qed.

Lemma handler_error_commits_resolved_witness :
  (exists pre,
      (processEachMessage liveConfig failsAt11 threeMessages runningQuietly).2 =
        pre ++ EvEachMessage "topic-test" 0 11 ::
        eachMessageErrorLog handlerFailure ++ [EvCommitOffsets None]) /\
  (exists e',
      (processEachMessage liveConfig failsAt11 threeMessages
         runningQuietly).1.1 = Exn e') /\
  cursorBelow "topic-test" 0 11
    (group (processEachMessage liveConfig failsAt11 threeMessages
              runningQuietly).1.2) /\
  (answered (script runningQuietly) ->
   (processEachMessage liveConfig failsAt11 threeMessages runningQuietly).1.1 =
     Exn handlerFailure /\
   forall o,
     resolved (group (processEachMessage liveConfig failsAt11 threeMessages
                        runningQuietly).1.2) !! ("topic-test", 0%Z) = Some o ->
     committed (group (processEachMessage liveConfig failsAt11 threeMessages
                         runningQuietly).1.2) !! ("topic-test", 0%Z) =
       Some (Z.succ o)).
Proof.
  apply (handler_error_commits_resolved liveConfig failsAt11 threeMessages
           runningQuietly (mkMessage 11 "k" "v") handlerFailure).
  - repeat constructor; simpl; lia.
  - intros m' _. split; intros x Hx; vm_compute in Hx; discriminate.
  - simpl. auto.
  - reflexivity.
  - vm_compute. auto 10.
Defined.

(** ** Heartbeats *)

(** Property X9: a fetch cycle that completes ends with a heartbeat call whose
    interval is [heartbeatInterval]; together with [after_message_eq], which
    places such a call after every message that [processEachMessage] resolves,
    this is where the Runner calls [heartbeat].  How much time passes between
    two calls is up to the handler and the collaborator. *)
Lemma fetch_ends_with_heartbeat cfg w w' evs :
  fetch cfg w = (Val tt, w', evs) ->
  exists pre, evs = pre ++ [EvHeartbeat (heartbeatInterval cfg)].
Proof.
  unfold fetch, fetch_resume. intros H.
  apply bind_inv in H
    as [(? & w1 & t1 & t1' & _ & H & ->) | [(e & _ & ?) | [_ ?]]]; [| done ..].
  apply bind_inv in H
    as [(? & w2 & t2 & t2' & _ & H & ->) | [(e & _ & ?) | [_ ?]]]; [| done ..].
  apply bind_inv in H
    as [(? & w3 & t3 & t3' & _ & H & ->) | [(e & _ & ?) | [_ ?]]]; [| done ..].
  apply bind_inv in H
    as [(? & w4 & t4 & t4' & _ & H & ->) | [(e & _ & ?) | [_ ?]]]; [| done ..].
  apply bind_inv in H
    as [(? & w5 & t5 & t5' & _ & H & ->) | [(e & _ & ?) | [_ ?]]]; [| done ..].
  rewrite group_heartbeat_eq in H. injection H as _ _ <-.
  exists (t1 ++ t2 ++ t3 ++ t4 ++ t5). by rewrite <- !app_assoc.
Qed.

(** ** The order of handler calls in [processEachMessage] *)

Lemma eachMessageLoop_in_order cfg h t p ms :
  forall w,
  exists n n',
    List.filter isEachMessage (eachMessageLoop cfg h t p ms w).2 =
      handlerCalls t p (take n ms) /\
    List.filter isResolveOffset (eachMessageLoop cfg h t p ms w).2 =
      resolutions t p (take n' ms) /\
    n' <= n <= S n' /\
    Forall (fun m => h_error (h t p m) = None) (take n' ms) /\
    (n = S n' ->
     exists m e, ms !! n' = Some m /\ h_error (h t p m) = Some e /\
                 (eachMessageLoop cfg h t p ms w).1.1 <> Val tt).
Proof.
  induction ms as [|m0 rest IH]; intros w.
  { exists 0, 0. repeat split; [lia | lia | constructor | lia]. }
  rewrite eachMessageLoop_cons.
  destruct (negb (running w) || hasSeekOffset t p (group w)).
  { exists 0, 0. repeat split; [lia | lia | constructor | lia]. }
  set (w1 := interfere (h_during (h t p m0)) w).
  destruct (h_error (h t p m0)) as [e0|] eqn:He0.
  - rewrite commit_then_throw_eq. exists 1, 0.
    unfold eachMessageErrorLog.
    destruct (r_failure (received w1)), (negb (isKafkaJSError e0)); simpl;
      (repeat split; [lia | lia | constructor |]); intros _;
      exists m0, e0; by repeat split.
  - rewrite after_message_eq. cbv zeta.
    set (w2 := set_group _ w1).
    destruct (r_failure (received w2)) as [e1|].
    { exists 1, 1. simpl. repeat split; [lia | lia | by repeat constructor | lia]. }
    destruct (r_failure (received (resumed w2))) as [e2|].
    { exists 1, 1. simpl. repeat split; [lia | lia | by repeat constructor | lia]. }
    set (w4 := if r_due _ then _ else _).
    destruct (IH w4) as (n & n' & Hcalls & Hres & Hn & Hacc & Hrej).
    exists (S n), (S n'). simpl. rewrite Hcalls, Hres.
    repeat split; [lia | lia | by constructor |].
    intros Hs. destruct Hrej as (m & e & Hm & He & Hr); [lia |].
    exists m, e. by repeat split.
Qed.

(** Property X1: the handler is called for the messages of a batch in their
    order and without a gap, and an offset is resolved when its message was
    accepted, before the next call: the calls are those of a prefix of the
    batch, the resolved offsets those of a prefix of that prefix which the
    handler accepted throughout, and the one message that may have been
    handled without being resolved is one that the handler rejected, making
    [processEachMessage] fail. *)
Theorem processEachMessage_in_order cfg h batch w :
  exists n n',
    List.filter isEachMessage (processEachMessage cfg h batch w).2 =
      handlerCalls (topic batch) (partition batch) (take n (messages batch)) /\
    List.filter isResolveOffset (processEachMessage cfg h batch w).2 =
      resolutions (topic batch) (partition batch) (take n' (messages batch)) /\
    n' <= n <= S n' /\
    Forall (fun m => h_error (h (topic batch) (partition batch) m) = None)
      (take n' (messages batch)) /\
    (n = S n' ->
     exists m e,
       messages batch !! n' = Some m /\
       h_error (h (topic batch) (partition batch) m) = Some e /\
       (processEachMessage cfg h batch w).1.1 <> Val tt).
Proof. unfold processEachMessage. apply eachMessageLoop_in_order. Qed.

(** ** A batch that is processed to its end *)

Lemma last_any_default {A} (x : A) l d d' :
  List.last (x :: l) d = List.last (x :: l) d'.
Proof. revert x. induction l as [|y l IH]; intros x; [done | apply IH]. Qed.

Lemma last_map_Some {A B} (f : A -> B) x l d d' :
  List.last (map (fun a => Some (f a)) (x :: l)) d =
    Some (List.last (f <$> (x :: l)) d').
Proof. revert x. induction l as [|y l IH]; intros x; [done | apply IH]. Qed.

Lemma interfere_harmless t p acts :
  forall w,
    forallb (harmless t p) acts = true ->
    running w = true -> hasSeekOffset t p (group w) = false ->
    running (interfere acts w) = true /\
    hasSeekOffset t p (group (interfere acts w)) = false.
Proof.
  induction acts as [|i acts IH]; intros w H Hr Hs; [done |].
  simpl in H. apply andb_prop in H as [Hi Hacts]. simpl.
  apply IH; [done | |].
  - destruct i; simpl in *; [by subst | done | done].
  - destruct i as [b|b|t' p' o]; simpl in *; [done | done |].
    unfold hasSeekOffset in *. simpl. rewrite lookup_insert_ne; [done |].
    intros [= -> ->]. rewrite String.eqb_refl, Z.eqb_refl in Hi. done.
Qed.

Lemma goesOn_interfere t p acts w :
  forallb (harmless t p) acts = true ->
  goesOn t p w -> goesOn t p (interfere acts w).
Proof.
  intros H (Hr & Hs & Hc).
  destruct (interfere_harmless t p acts w H Hr Hs) as [Hr' Hs'].
  destruct (interfere_cursor acts w) as (_ & _ & Hsc).
  repeat split; [done | done | by rewrite Hsc].
Qed.

Lemma goesOn_resumed t p w :
  goesOn t p w -> r_failure (received w) = None /\ goesOn t p (resumed w).
Proof.
  intros (Hr & Hs & Hc). unfold resumed, received, suspend.
  destruct (script w) as [|r rest] eqn:Hsc; simpl.
  { split; [done |]. repeat split; [done | done |]. rewrite Hsc. constructor. }
  inversion Hc as [|? ? [Hd Hf] Hrest]; subst. split; [done |].
  apply goesOn_interfere; [done |]. by repeat split.
Qed.

Lemma goesOn_cursor t p w g :
  seekOffset g = seekOffset (group w) ->
  goesOn t p w -> goesOn t p (set_group g w).
Proof.
  intros Hg (Hr & Hs & Hc). repeat split; [done | | done].
  unfold hasSeekOffset in *. simpl. by rewrite Hg.
Qed.

Lemma eachMessageLoop_handles_all cfg h t p ms :
  forall w,
    goesOn t p w -> Forall (accepts h t p) ms ->
    (eachMessageLoop cfg h t p ms w).1.1 = Val tt /\
    (eachMessageLoop cfg h t p ms w).2 = flat_map (messageRound cfg t p) ms /\
    goesOn t p (eachMessageLoop cfg h t p ms w).1.2 /\
    resolved (group (eachMessageLoop cfg h t p ms w).1.2) !! (t, p) =
      List.last (map (fun m => Some (offset m)) ms)
        (resolved (group w) !! (t, p)).
Proof.
  induction ms as [|m0 rest IH]; intros w Hw Hacc; [done |].
  inversion Hacc as [|? ? [He Hd] Hrest]; subst.
  rewrite eachMessageLoop_cons.
  destruct Hw as (Hr & Hs & Hc). rewrite Hr, Hs. simpl. rewrite He.
  assert (goesOn t p (interfere (h_during (h t p m0)) w)) as Hw1.
  { apply goesOn_interfere; [done |]. by repeat split. }
  rewrite after_message_eq. cbv zeta.
  set (w2 := set_group _ (interfere _ w)).
  assert (goesOn t p w2) as Hw2 by by apply goesOn_cursor.
  destruct (goesOn_resumed t p w2 Hw2) as [-> Hw3].
  destruct (goesOn_resumed t p (resumed w2) Hw3) as [-> Hw4].
  set (w4 := if r_due _ then _ else _).
  assert (goesOn t p w4) as Hw5.
  { subst w4. destruct (r_due _); [by apply goesOn_cursor | done]. }
  assert (resolved (group w4) !! (t, p) = Some (offset m0)) as Hres.
  { destruct (resumed_cursor w2) as [Hr2 _].
    destruct (resumed_cursor (resumed w2)) as [Hr3 _].
    assert (resolved (group w4) = resolved (group w2)) as ->.
    { subst w4. destruct (r_due _);
        [change (resolved (group (resumed (resumed w2))) =
                 resolved (group w2)) |]; by rewrite Hr3, Hr2. }
    subst w2. simpl. apply lookup_insert_eq. }
  destruct (IH w4 Hw5 Hrest) as (Hv & Hev & Hgo & Hlast).
  simpl. rewrite Hv, Hev, Hlast, Hres.
  split; [done |]. split; [done |]. split; [done |].
  destruct rest as [|m1 rest']; [done |]. apply last_any_default.
Qed.

(** Property X2: when the runner stays running, the partition is not seeked,
    no call on the collaborator is rejected and the handler accepts every
    message, [processEachMessage] returns after having, for each message of
    the batch in turn, called the handler, resolved the offset, called
    [heartbeat] and called [commitOffsetsIfNecessary]; the offset resolved
    last is the last of the batch. *)
Theorem processEachMessage_handles_all cfg h batch w :
  goesOn (topic batch) (partition batch) w ->
  Forall (accepts h (topic batch) (partition batch)) (messages batch) ->
  (processEachMessage cfg h batch w).1.1 = Val tt /\
  (processEachMessage cfg h batch w).2 =
    flat_map (messageRound cfg (topic batch) (partition batch))
      (messages batch) /\
  goesOn (topic batch) (partition batch) (processEachMessage cfg h batch w).1.2 /\
  (isEmpty batch = false ->
   resolved (group (processEachMessage cfg h batch w).1.2)
     !! (topic batch, partition batch) = Some (lastOffset batch)).
Proof.
  intros Hw Hacc. unfold processEachMessage.
  destruct (eachMessageLoop_handles_all cfg h _ _ _ w Hw Hacc)
    as (Hv & Hev & Hgo & Hlast).
  repeat split; [done | done | apply Hgo | apply Hgo | apply Hgo |].
  intros Hne. rewrite Hlast. unfold lastOffset, isEmpty in *.
  destruct (messages batch) as [|m0 rest]; [done | apply last_map_Some].
Qed.

Lemma processEachMessage_handles_all_witness :
  (processEachMessage liveConfig okHandler twoMessages runningQuietly).1.1 =
    Val tt /\
  (processEachMessage liveConfig okHandler twoMessages runningQuietly).2 =
    flat_map (messageRound liveConfig "topic-test" 0) (messages twoMessages) /\
  goesOn "topic-test" 0
    (processEachMessage liveConfig okHandler twoMessages runningQuietly).1.2 /\
  (isEmpty twoMessages = false ->
   resolved
     (group (processEachMessage liveConfig okHandler twoMessages
               runningQuietly).1.2) !! ("topic-test", 0%Z) = Some 11%Z).
Proof.
  apply (processEachMessage_handles_all liveConfig okHandler twoMessages
           runningQuietly).
  - split; [reflexivity |]. split; [vm_compute; reflexivity | constructor].
  - repeat constructor.
Defined.

(** ** A handler error in [processEachBatch] *)

Lemma autoCommit_then_throw_eq cfg e w :
  (autoCommitOffsets cfg ;; @throw unit e) w =
    if autoCommit cfg then
      match r_failure (received w) with
      | Some e' => (Exn e', resumed w, [EvCommitOffsets None])
      | None =>
          (Exn e, set_group (commit_resolved (group (resumed w))) (resumed w),
           [EvCommitOffsets None])
      end
    else (Exn e, w, []).
Proof.
  unfold autoCommitOffsets. destruct (autoCommit cfg); [| done].
  apply commit_then_throw_eq.
Qed.

Lemma processEachBatch_error_eq cfg h batch w e w1 t1 :
  runEachBatch cfg (topic batch) (partition batch) (h batch) w =
    (Exn e, w1, t1) ->
  processEachBatch cfg h batch w =
    after (EvEachBatch (topic batch) (partition batch) :: t1 ++
           eachBatchErrorLog e)
      ((autoCommitOffsets cfg ;; throw e) w1).
Proof.
  intros Hrun. unfold processEachBatch, bind at 1, try_catch, bind at 1, log.
  rewrite Hrun. unfold bind at 1, eachBatchErrorLog, after.
  rewrite autoCommit_then_throw_eq.
  destruct (negb (isKafkaJSError e)); simpl;
    rewrite autoCommit_then_throw_eq;
    destruct (autoCommit cfg); [destruct (r_failure (received w1)) | |
                                destruct (r_failure (received w1)) |];
    simpl; by rewrite ?app_nil_r, <- ?app_assoc.
Qed.

(** Property X4: when the [eachBatch] handler rejects with [e],
    [processEachBatch] rejects as well.  It resolves nothing beyond what the
    handler resolved itself (the last offset of the batch is not resolved for
    it), logs the error unless it is a KafkaJSError, and calls
    [commitOffsets()] if and only if [autoCommit] is set; the error it rejects
    with is the handler's, unless that commit is rejected. *)
Theorem processEachBatch_handler_error cfg h batch w e w1 t1 :
  runEachBatch cfg (topic batch) (partition batch) (h batch) w =
    (Exn e, w1, t1) ->
  (exists e', (processEachBatch cfg h batch w).1.1 = Exn e') /\
  List.filter isResolveOffset (processEachBatch cfg h batch w).2 =
    List.filter isResolveOffset t1 /\
  (processEachBatch cfg h batch w).2 =
    EvEachBatch (topic batch) (partition batch) :: t1 ++
    eachBatchErrorLog e ++
    (if autoCommit cfg then [EvCommitOffsets None] else []) /\
  (autoCommit cfg = false \/ r_failure (received w1) = None ->
   (processEachBatch cfg h batch w).1.1 = Exn e) /\
  (autoCommit cfg = false -> (processEachBatch cfg h batch w).1.2 = w1).
Proof.
  intros Hrun. rewrite (processEachBatch_error_eq _ _ _ _ _ _ _ Hrun).
  rewrite autoCommit_then_throw_eq. unfold after, eachBatchErrorLog.
  destruct (autoCommit cfg);
    [destruct (r_failure (received w1)) as [e'|] |]; simpl;
    rewrite ?app_nil_r;
    (split; [by eexists |]);
    (split; [rewrite !List.filter_app;
             destruct (negb (isKafkaJSError e)); simpl;
             by rewrite ?app_nil_r |]);
    (split; [by rewrite <- ?app_assoc |]);
    (split; [| done]); intros [?|?]; done.
Qed.

Lemma processEachBatch_handler_error_witness :
  (exists e',
      (processEachBatch manualCommit failsAfterFirst twoMessages
         runningQuietly).1.1 = Exn e') /\
  List.filter isResolveOffset
    (processEachBatch manualCommit failsAfterFirst twoMessages
       runningQuietly).2 =
    List.filter isResolveOffset [EvResolveOffset "topic-test" 0 10] /\
  (processEachBatch manualCommit failsAfterFirst twoMessages
     runningQuietly).2 =
    EvEachBatch "topic-test" 0 :: [EvResolveOffset "topic-test" 0 10] ++
    eachBatchErrorLog handlerFailure ++ [] /\
  (autoCommit manualCommit = false \/
   r_failure
     (received
        (mkWorld true true
           (mkGroup (Some "member-1") {[ ("topic-test", 0%Z) := 10%Z ]} ∅ ∅)
           [])) = None ->
   (processEachBatch manualCommit failsAfterFirst twoMessages
      runningQuietly).1.1 = Exn handlerFailure) /\
  (autoCommit manualCommit = false ->
   (processEachBatch manualCommit failsAfterFirst twoMessages
      runningQuietly).1.2 =
     mkWorld true true
       (mkGroup (Some "member-1") {[ ("topic-test", 0%Z) := 10%Z ]} ∅ ∅) []).
Proof.
  apply (processEachBatch_handler_error manualCommit failsAfterFirst
           twoMessages runningQuietly handlerFailure).
  vm_compute. reflexivity.
Defined.

(** ** What a fetch cycle touches *)

Lemma emits_weaken {A} (P Q : Event -> Prop) (m : M A) :
  (forall ev, P ev -> Q ev) -> emits P m -> emits Q m.
Proof. intros H Hm w. eapply Forall_impl; [apply Hm | done]. Qed.

Lemma group_fetch_answer_eq w :
  group_fetch_answer w =
    match r_failure (received w) with
    | Some e => (Exn e, resumed w, [])
    | None => (Val (r_batches (received w)), fetched w, [])
    end.
Proof.
  unfold group_fetch_answer, answer, bind at 1, bind at 1.
  rewrite suspend_received. by destruct (r_failure (received w)).
Qed.

Lemma fetch_eq cfg w :
  fetch cfg w =
    match r_failure (received w) with
    | Some e => (Exn e, resumed w, [EvFetch])
    | None =>
        after [EvFetch; EvEmit (FETCH (length (r_batches (received w))))]
          ((awaitAll cfg (r_batches (received w)) ;;
            autoCommitOffsets cfg ;;
            group_heartbeat (heartbeatInterval cfg)) (fetched w))
    end.
Proof.
  unfold fetch, bind at 1, log, fetch_resume, bind at 1.
  rewrite group_fetch_answer_eq.
  destruct (r_failure (received w)); [done |].
  unfold bind at 1, log, after.
  by destruct (bind (awaitAll _ _) _ _) as [[r w1] t1].
Qed.

(** The parts of a fetch cycle, by the events of their parts. *)
Section CycleOf.

Variable P : Event -> Prop.
Variable cfg : Config.

Lemma emits_batchTask_of b :
  (isEmpty b = false -> emits P (onBatch cfg b)) ->
  emits P (batchTask cfg b).
Proof.
  intros H. unfold batchTask. apply emits_bind; [apply emits_get |].
  intros r. destruct (negb r); [apply emits_ret |].
  destruct (isEmpty b); [apply emits_ret | by apply H].
Qed.

Lemma emits_awaitAll_of bs :
  (forall b, In b bs -> isEmpty b = false -> emits P (onBatch cfg b)) ->
  emits P (awaitAll cfg bs).
Proof.
  induction bs as [|b rest IH]; intros H; simpl; [apply emits_ret |].
  apply emits_bind.
  - apply emits_batchTask_of, H. by left.
  - intros _. apply IH. intros b' Hb'. apply H. by right.
Qed.

Lemma emits_onBatch_of b :
  P (EvEmit (START_BATCH_PROCESS (batchPayload b))) ->
  P (EvEmit (END_BATCH_PROCESS (batchPayload b))) ->
  (forall h, eachMessage cfg = Some h -> emits P (processEachMessage cfg h b)) ->
  (forall h, eachMessage cfg = None -> eachBatch cfg = Some h ->
             emits P (processEachBatch cfg h b)) ->
  emits P (onBatch cfg b).
Proof.
  intros Hs He Hm Hb. unfold onBatch.
  apply emits_bind; [by apply emits_log |]. intros _.
  apply emits_bind; [| intros _; by apply emits_log].
  destruct (eachMessage cfg) as [hm|]; [by apply Hm |].
  destruct (eachBatch cfg) as [hb|]; [by apply Hb | apply emits_ret].
Qed.

Lemma fetch_events_of w :
  P EvFetch ->
  P (EvEmit (FETCH (length (r_batches (received w))))) ->
  (forall b, In b (r_batches (received w)) -> isEmpty b = false ->
             emits P (onBatch cfg b)) ->
  emits P (autoCommitOffsets cfg) ->
  P (EvHeartbeat (heartbeatInterval cfg)) ->
  Forall P (fetch cfg w).2.
Proof.
  intros Hf Hn Hb Hc Hh. rewrite fetch_eq.
  destruct (r_failure (received w)); [by repeat constructor |].
  unfold after. simpl. constructor; [done |]. constructor; [done |].
  apply emits_bind; [by apply emits_awaitAll_of |]. intros _.
  apply emits_bind; [done |]. intros _.
  unfold group_heartbeat. apply emits_bind; [by apply emits_rpc |].
  intros _. apply emits_ret.
Qed.

End CycleOf.

Lemma emits_messageScope cfg h t p offs ms :
  Forall (fun m => In (offset m) offs) ms ->
  emits (messageScope cfg t p offs) (eachMessageLoop cfg h t p ms).
Proof.
  induction 1 as [|m rest Hm Hrest IH]; simpl; [apply emits_ret |].
  unfold callEachMessage, group_commitOffsets, group_resolveOffset,
    group_heartbeat, group_commitOffsetsIfNecessary.
  emits_go ltac:(by simpl).
Qed.

Lemma emits_batchScope_run cfg t p prog :
  emits (fun ev => batchScope cfg t p ev /\ callsEachBatch ev = false)
    (runEachBatch cfg t p prog).
Proof.
  induction prog as [|e|o k IH|k IH|offs k IH|k IH|k IH|k IH|d k IH]; simpl;
    unfold group_commitOffsets, group_resolveOffset, group_heartbeat,
      group_commitOffsetsIfNecessary;
    emits_go ltac:(by simpl).
Qed.

Lemma processEachBatch_events cfg h batch w :
  exists rest,
    (processEachBatch cfg h batch w).2 =
      EvEachBatch (topic batch) (partition batch) :: rest /\
    Forall (fun ev => batchScope cfg (topic batch) (partition batch) ev /\
                      callsEachBatch ev = false) rest.
Proof.
  set (P := fun ev => batchScope cfg (topic batch) (partition batch) ev /\
                      callsEachBatch ev = false).
  pose proof (emits_batchScope_run cfg (topic batch) (partition batch)
                (h batch) w) as Hr.
  assert (forall e,
            emits P ((if negb (isKafkaJSError e)
                      then log (EvLog LError "Error when calling eachBatch")
                      else ret tt) ;;
                     autoCommitOffsets cfg ;; @throw unit e)) as Hc.
  { intros e. unfold autoCommitOffsets, group_commitOffsets.
    emits_go ltac:(by simpl). }
  assert (emits P (if eachBatchAutoResolve cfg
                   then group_resolveOffset (topic batch) (partition batch)
                          (lastOffset batch)
                   else ret tt)) as Hl.
  { unfold group_resolveOffset. emits_go ltac:(by simpl). }
  unfold processEachBatch, bind at 1, try_catch, bind at 1, log.
  destruct (runEachBatch cfg _ _ _ w) as [[[[]|e|] w1] t1]; simpl in *.
  - specialize (Hl w1).
    destruct (if eachBatchAutoResolve cfg then _ else _) as [[r2 w2] t2].
    eexists. split; [done |]. by apply Forall_app.
  - specialize (Hc e w1).
    destruct (bind _ _ w1) as [[r2 w2] t2]. simpl in *.
    destruct r2 as [[]|e2|]; simpl.
    + specialize (Hl w2).
      destruct (if eachBatchAutoResolve cfg then _ else _) as [[r3 w3] t3].
      eexists. split; [done |].
      apply Forall_app. split; [by apply Forall_app | done].
    + eexists. split; [done |]. by apply Forall_app.
    + eexists. split; [done |]. by apply Forall_app.
  - by eexists.
Qed.

(** Property X5: [processEachBatch] calls the handler once, before anything
    else.  Whatever the handler then does with the control surface handed to
    it, the offsets it resolves are resolved for the partition of the batch
    and its heartbeats are sent with the configured interval; beyond the
    handler's calls, [processEachBatch] only resolves an offset of that
    partition, commits, and logs an error. *)
Theorem processEachBatch_scope cfg h batch w :
  exists rest,
    (processEachBatch cfg h batch w).2 =
      EvEachBatch (topic batch) (partition batch) :: rest /\
    Forall (fun ev => batchScope cfg (topic batch) (partition batch) ev /\
                      callsEachBatch ev = false) rest.
Proof. apply processEachBatch_events. Qed.

Lemma emits_batchScope cfg h batch :
  emits (batchScope cfg (topic batch) (partition batch))
    (processEachBatch cfg h batch).
Proof.
  intros w. destruct (processEachBatch_events cfg h batch w) as (rest & -> & H).
  constructor; [done |]. eapply Forall_impl; [exact H |]. by intros ev [? _].
Qed.

Lemma emits_messageScope_batch cfg h batch :
  emits (messageScope cfg (topic batch) (partition batch)
           (offset <$> messages batch))
    (processEachMessage cfg h batch).
Proof.
  apply emits_messageScope. apply Forall_forall. intros m Hm.
  apply list_elem_of_In in Hm. by apply in_map.
Qed.

Lemma fetchScope_onBatch cfg batches b :
  In b batches -> isEmpty b = false ->
  emits (fetchScope cfg batches) (onBatch cfg b).
Proof.
  intros Hin Hne. apply emits_onBatch_of.
  - by exists b.
  - by exists b.
  - intros h Hh. eapply emits_weaken; [| apply emits_messageScope_batch].
    intros ev. destruct ev; simpl; try done.
    + by left.
    + intros (-> & -> & Ho). exists b. by repeat split.
    + intros (-> & -> & Ho). split; [congruence |]. exists b. by repeat split.
  - intros h Hm Hh. eapply emits_weaken; [| apply emits_batchScope].
    intros ev. destruct ev; simpl; try done.
    + by right.
    + intros [-> ->]. exists b. repeat split; [done |]. by rewrite Hm.
    + intros [-> ->]. split; [done |]. split; [congruence |]. by exists b.
Qed.

Lemma fetch_events_in_scope cfg w :
  Forall (fetchScope cfg (r_batches (received w))) (fetch cfg w).2.
Proof.
  apply fetch_events_of; try done.
  - intros b Hin Hne. by apply fetchScope_onBatch.
  - unfold autoCommitOffsets, group_commitOffsets.
    emits_go ltac:(simpl; auto).
Qed.

(** Property X7: everything that a fetch cycle does concerns the batches that
    [consumerGroup.fetch()] answered with: the batch events are those of
    non-empty batches among them, the [eachMessage] handler is called, and
    offsets are resolved for it, only for messages of these batches, the
    [eachBatch] handler is called only without an [eachMessage] handler and
    resolves only offsets of their partitions, every heartbeat is sent with
    [heartbeatInterval], and explicit offsets are committed only on behalf of
    an [eachBatch] handler.  A fetch cycle never assigns [running] or
    [consuming], never joins, syncs or leaves, sets no timer and never calls
    the crash handler. *)
Theorem fetch_scope cfg w :
  Forall (fetchScope cfg (r_batches (received w))) (fetch cfg w).2.
Proof. apply fetch_events_in_scope. Qed.

(** ** The batch events *)

(** Property X6: [onBatch] emits START_BATCH_PROCESS first, and
    END_BATCH_PROCESS last if and only if the processing of the batch
    returned; it emits nothing in between. *)
Theorem onBatch_brackets cfg batch w :
  exists mid,
    (onBatch cfg batch w).2 =
      EvEmit (START_BATCH_PROCESS (batchPayload batch)) :: mid ++
      match (onBatch cfg batch w).1.1 with
      | Val _ => [EvEmit (END_BATCH_PROCESS (batchPayload batch))]
      | _ => []
      end /\
    Forall (fun ev => isEmit ev = false) mid.
Proof.
  unfold onBatch, bind at 1, log.
  set (m := match eachMessage cfg with Some _ => _ | None => _ end).
  assert (emits (fun ev => isEmit ev = false) m) as Hm.
  { subst m. destruct (eachMessage cfg) as [hm|].
    - eapply emits_weaken; [| apply emits_messageScope_batch].
      by intros [].
    - destruct (eachBatch cfg) as [hb|]; [| apply emits_ret].
      eapply emits_weaken; [| apply emits_batchScope]. by intros []. }
  specialize (Hm w). unfold bind.
  destruct (m w) as [[[[]|e|] w1] t1]; simpl in *;
    exists t1; by rewrite ?app_nil_r.
Qed.

(** ** A fetch with nothing to process *)

Lemma awaitAll_skips cfg bs w :
  running w = false \/ Forall (fun b => isEmpty b = true) bs ->
  awaitAll cfg bs w = (Val tt, w, []).
Proof.
  intros H. induction bs as [|b rest IH]; [done |]. simpl.
  assert (batchTask cfg b w = (Val tt, w, [])) as Hb.
  { unfold batchTask, bind, get. simpl.
    destruct H as [Hr | H]; [by rewrite Hr |].
    inversion H as [|? ? Hb' _]; subst. rewrite Hb'. by destruct (running w). }
  unfold bind at 1. rewrite Hb, IH; [done |].
  destruct H as [? | H]; [by left | right]. by inversion H.
Qed.

(** Property X8: when [consumerGroup.fetch()] answers with empty batches only,
    or the runner was stopped while the fetch was awaited, the cycle takes up
    no batch: after the FETCH event it goes straight to the auto-commit and
    the heartbeat, emitting no batch event and calling no handler. *)
Theorem fetch_skips_batches cfg w :
  r_failure (received w) = None ->
  running (resumed w) = false \/
  Forall (fun b => isEmpty b = true) (r_batches (received w)) ->
  fetch cfg w =
    after [EvFetch; EvEmit (FETCH (length (r_batches (received w))))]
      ((autoCommitOffsets cfg ;; group_heartbeat (heartbeatInterval cfg))
         (fetched w)).
Proof.
  intros Hf H. rewrite fetch_eq, Hf. f_equal.
  unfold bind at 1. rewrite awaitAll_skips; [| exact H].
  by destruct (bind _ _ _) as [[r1 w1] t1].
Qed.

Lemma fetch_skips_batches_witness :
  fetch liveConfig nothingNew =
    (Val tt, mkWorld true true joinedGroup [],
     [EvFetch; EvEmit (FETCH 2); EvCommitOffsets None; EvHeartbeat 3000]).
Proof.
  rewrite (fetch_skips_batches liveConfig nothingNew).
  - vm_compute. reflexivity.
  - reflexivity.
  - right. repeat constructor.
Defined.

(** ** The end of the fetch loop *)

Lemma scheduleFetch_enter_eq w :
  scheduleFetch_enter w =
    if running w
    then (Val true, set_consuming true w, [EvConsuming true; EvFetch])
    else (Val false, w, [EvLog Debug "consumer not running, exiting"]).
Proof. unfold scheduleFetch_enter, bind, get. simpl. by destruct (running w). Qed.

Lemma afterAttempt_eq cfg again budget retryCount r w :
  afterAttempt cfg again budget retryCount r w =
    match r with
    | Val Cycled =>
        if running (resumed (set_consuming false w)) then
          after [EvConsuming false; EvConsuming true; EvFetch]
            (again (retries cfg) 0
               (set_consuming true (resumed (set_consuming false w))))
        else
          (Val tt, resumed (set_consuming false w),
           [EvConsuming false; EvLog Debug "consumer not running, exiting"])
    | Val Exited => (Val tt, set_consuming false w, [EvConsuming false])
    | Val Reenter =>
        if running w then
          after [EvConsuming true; EvFetch; EvConsuming false]
            (again (retries cfg) 0 (set_consuming false w))
        else
          (Val tt, set_consuming false w,
           [EvLog Debug "consumer not running, exiting"; EvConsuming false])
    | Val (Bail e) =>
        (Val tt, set_consuming false w, [EvConsuming false; EvOnCrash e])
    | Exn e =>
        match budget with
        | 0 => (Val tt, set_consuming false w, [EvConsuming false; EvOnCrash e])
        | S budget' =>
            after [EvConsuming false; EvBackoff retryCount; EvConsuming true;
                   EvFetch]
              (again budget' (S retryCount)
                 (set_consuming true (resumed (set_consuming false w))))
        end
    | Pending => (Pending, w, [])
    end.
Proof.
  destruct r as [[| | |e]|e|]; simpl; try done.
  - unfold bind at 1, assign_consuming. unfold bind at 1.
    rewrite suspend_received. unfold bind at 1.
    rewrite scheduleFetch_enter_eq.
    destruct (running (resumed _)); [| done].
    unfold after. by destruct (again _ _ _) as [[r2 w2] t2].
  - unfold bind at 1. rewrite scheduleFetch_enter_eq.
    destruct (running w) eqn:Hr; simpl; [| done].
    unfold bind, assign_consuming, after. simpl.
    by destruct (again _ _ _) as [[r2 w2] t2].
  - destruct budget as [|budget']; [done |].
    unfold bind at 1, assign_consuming. unfold bind at 1, log.
    unfold bind at 1. rewrite suspend_received.
    unfold bind at 1, bind at 1, after. simpl.
    by destruct (again _ _ _) as [[r2 w2] t2].
Qed.











(** ** Rejections of [join] *)

Lemma join_attempt_eq n w :
  join_attempt n w =
    match r_failure (received w) with
    | Some e =>
        if isRebalancing e
        then (Exn groupIsRebalancing, resumed w, [EvJoin])
        else (Val (Bailed e), resumed w, [EvJoin; EvBail e])
    | None =>
        let w1 := set_group
                    (identify (r_memberId (received w)) (group (resumed w)))
                    (resumed w) in
        match r_failure (received w1) with
        | Some e =>
            if isRebalancing e
            then (Exn groupIsRebalancing, resumed w1, [EvJoin; EvSync])
            else (Val (Bailed e), resumed w1, [EvJoin; EvSync; EvBail e])
        | None =>
            (Val Returned, set_running true (resumed w1),
             [EvJoin; EvSync; EvRunning InJoin (running (resumed w1)) true;
              EvEmit (GROUP_JOIN (memberId (group (resumed w1))));
              EvLog Info "Consumer has joined the group"])
        end
    end.
Proof.
  unfold join_attempt, try_catch, bind at 1, group_join, bind at 1.
  rewrite rpc_eq.
  destruct (r_failure (received w)) as [e|].
  { by destruct (isRebalancing e). }
  unfold modify_group, modify. cbv zeta. simpl.
  unfold bind at 1, group_sync, bind at 1. rewrite rpc_eq.
  destruct (r_failure (received _)) as [e|].
  { by destruct (isRebalancing e). }
  done.
Qed.

Lemma join_attempt_cases n w :
  List.filter isJoinCall (join_attempt n w).2 = [EvJoin] /\
  match (join_attempt n w).1.1 with
  | Val Returned => True
  | Val (Bailed e) =>
      isRebalancing e = false /\
      exists pre, (join_attempt n w).2 = pre ++ [EvBail e]
  | Exn e => e = groupIsRebalancing
  | Pending => False
  end.
Proof.
  rewrite join_attempt_eq. cbv zeta.
  destruct (r_failure (received w)) as [e|].
  { destruct (isRebalancing e) eqn:He; simpl; [done |].
    split; [done |]. split; [done |]. by exists [EvJoin]. }
  destruct (r_failure (received _)) as [e|]; [| done].
  destruct (isRebalancing e) eqn:He; simpl; [done |].
  split; [done |]. split; [done |]. by exists [EvJoin; EvSync].
Qed.

Lemma retrier_step budget n fn w r w1 t1 :
  fn n w = (r, w1, t1) ->
  retrier budget n fn w =
    match r with
    | Val Returned => (Val tt, w1, t1)
    | Val (Bailed e) => (Exn e, w1, t1)
    | Exn e =>
        match budget with
        | 0 => (Exn e, w1, t1)
        | S budget' =>
            after (t1 ++ [EvBackoff n])
              (retrier budget' (S n) fn (resumed w1))
        end
    | Pending => (Pending, w1, t1)
    end.
Proof.
  intros H.
  destruct budget as [|budget']; simpl; unfold bind at 1, reify; rewrite H;
    destruct r as [[|e]|e|]; simpl; rewrite ?app_nil_r; try done.
  unfold bind at 1, log. unfold bind at 1. rewrite suspend_received.
  unfold after. destruct (retrier budget' _ _ _) as [[r2 w2] t2]. simpl.
  by rewrite <- app_assoc.
Qed.

Lemma retrier_join_calls budget :
  forall n w,
    1 <= length (List.filter isJoinCall (retrier budget n join_attempt w).2)
      <= S budget /\
    forall e w' evs,
      retrier budget n join_attempt w = (Exn e, w', evs) ->
      isRebalancing e = false /\
      ((exists pre, evs = pre ++ [EvBail e]) \/
       (e = groupIsRebalancing /\
        length (List.filter isJoinCall evs) = S budget)).
Proof.
  induction budget as [|budget IH]; intros n w;
    pose proof (join_attempt_cases n w) as [Hcalls Hcase];
    destruct (join_attempt n w) as [[r w1] t1] eqn:Hat;
    rewrite (retrier_step _ _ _ _ _ _ _ Hat); simpl in *;
    destruct r as [[|e0]|e0|]; simpl; rewrite ?Hcalls; try done.
  - split; [simpl; lia |]. intros e w' evs [= <- <- <-].
    destruct Hcase as [Hreb (pre & ->)]. split; [done |]. left. by exists pre.
  - split; [simpl; lia |]. intros e w' evs [= <- <- <-].
    subst e0. split; [done |]. right. by rewrite Hcalls.
  - split; [simpl; lia | done].
  - split; [simpl; lia |]. intros e w' evs [= <- <- <-].
    destruct Hcase as [Hreb (pre & ->)]. split; [done |]. left. by exists pre.
  - destruct (IH (S n) (resumed w1)) as [Hb Hrej].
    destruct (retrier budget (S n) join_attempt (resumed w1))
      as [[r2 w2] t2] eqn:Hr. simpl in *.
    rewrite !List.filter_app, Hcalls. simpl.
    split; [lia |]. intros e w' evs [= -> <- <-].
    destruct (Hrej e w2 t2 eq_refl) as [Hreb [(pre & ->) | [-> Hn]]].
    + split; [done |]. left. exists ((t1 ++ [EvBackoff n]) ++ pre).
      by rewrite <- !app_assoc.
    + split; [done |]. right. split; [done |].
      rewrite !List.filter_app, Hcalls. simpl. by rewrite Hn.
Qed.

(** Property X11: [join] calls [consumerGroup.join()] at least once and at
    most once more than the configured number of retries.  It never rejects
    with a rebalance error: a rejection of [join()] or [sync()] with such an
    error is retried, and when the retries are used up [join] rejects with the
    KafkaJSError 'The group is rebalancing'; any other rejection is passed to
    [bail] and ends [join] at once with that error. *)
Theorem join_rejection cfg w :
  1 <= length (List.filter isJoinCall (join cfg w).2) <= S (retries cfg) /\
  forall e w' evs,
    join cfg w = (Exn e, w', evs) ->
    isRebalancing e = false /\
    ((exists pre, evs = pre ++ [EvBail e]) \/
     (e = groupIsRebalancing /\
      length (List.filter isJoinCall evs) = S (retries cfg))).
Proof. apply retrier_join_calls. Qed.

Lemma join_rejection_witness :
  isRebalancing handlerFailure = false /\
  ((exists pre, [EvJoin; EvBail handlerFailure] = pre ++ [EvBail handlerFailure]) \/
   (handlerFailure = groupIsRebalancing /\
    length (List.filter isJoinCall [EvJoin; EvBail handlerFailure]) =
      S (retries liveConfig))).
Proof.
  destruct (join_rejection liveConfig joinFails) as [_ H].
  apply (H handlerFailure (mkWorld false false joinedGroup [])).
  vm_compute. reflexivity.
Defined.

(** ** A runner that leaves the commits to its user *)

Section NoCommit.

Variable cfg : Config.
Hypothesis Hoff : autoCommit cfg = false.
Hypothesis Hmode : eachMessage cfg = None.
Hypothesis Hnever : forall h b, eachBatch cfg = Some h -> neverCommits (h b).

Local Abbreviation quietly := (fun ev : Event => isCommit ev = false).

Lemma noCommit_run t p prog :
  neverCommits prog -> emits quietly (runEachBatch cfg t p prog).
Proof.
  induction 1; simpl; unfold group_resolveOffset, group_heartbeat;
    emits_go ltac:(by simpl).
Qed.

Lemma noCommit_onBatch b : emits quietly (onBatch cfg b).
Proof.
  apply emits_onBatch_of; [done | done | by rewrite Hmode |].
  intros h _ Hh. pose proof (noCommit_run (topic b) (partition b) (h b)
                               (Hnever h b Hh)) as Hrun.
  unfold processEachBatch, autoCommitOffsets, group_resolveOffset.
  rewrite Hoff. emits_go ltac:(by simpl).
Qed.

Lemma noCommit_fetch w : Forall quietly (fetch cfg w).2.
Proof.
  apply fetch_events_of; try done.
  - intros b _ _. apply noCommit_onBatch.
  - unfold autoCommitOffsets. rewrite Hoff. apply emits_ret.
Qed.

Lemma noCommit_fetch_resume : emits quietly (fetch_resume cfg).
Proof.
  intros w. pose proof (noCommit_fetch w) as H.
  unfold fetch, bind at 1, log in H.
  destruct (fetch_resume cfg w) as [[r w1] t1]. simpl in *.
  by inversion H.
Qed.

Lemma noCommit_join : emits quietly (join cfg).
Proof.
  unfold join. apply emits_retrier; [done |]. intros n.
  unfold join_attempt, group_join, group_sync. emits_go ltac:(by simpl).
Qed.

Lemma noCommit_scheduleFetch_resume fuel :
  forall budget retryCount,
    emits quietly (scheduleFetch_resume cfg fuel budget retryCount).
Proof.
  pose proof noCommit_join as Hj. pose proof noCommit_fetch_resume as Hf.
  induction fuel as [|fuel IH]; intros budget n; simpl; [apply emits_pending |].
  apply emits_bind.
  - apply emits_reify. unfold cycle_resume, onFetchError.
    emits_go ltac:(by simpl).
  - intros r. unfold afterAttempt, scheduleFetch_enter.
    destruct r as [[| | |e]|e|]; [| | | | destruct budget |];
      emits_go ltac:(by simpl).
Qed.

Lemma noCommit_scheduleFetch fuel : emits quietly (scheduleFetch cfg fuel).
Proof.
  pose proof (noCommit_scheduleFetch_resume fuel) as Hs.
  unfold scheduleFetch, scheduleFetch_enter. emits_go ltac:(by simpl).
Qed.

Lemma noCommit_start fuel : emits quietly (start cfg fuel).
Proof.
  pose proof (noCommit_scheduleFetch fuel) as Hs.
  pose proof noCommit_join as Hj.
  unfold start. emits_go ltac:(by simpl).
Qed.

End NoCommit.

(** Property X10: with [autoCommit] off and no [eachMessage] handler, the
    Runner commits nothing of its own accord: when the [eachBatch] handler
    never calls the [commitOffsetsIfNecessary] handed to it, neither [start],
    nor the fetch loop with its re-joins, nor any fetch cycle calls
    [commitOffsets] or [commitOffsetsIfNecessary]. *)
Theorem batch_mode_commits_on_request_only cfg fuel w :
  autoCommit cfg = false -> eachMessage cfg = None ->
  (forall h b, eachBatch cfg = Some h -> neverCommits (h b)) ->
  Forall (fun ev => isCommit ev = false) (start cfg fuel w).2 /\
  Forall (fun ev => isCommit ev = false) (scheduleFetch cfg fuel w).2 /\
  Forall (fun ev => isCommit ev = false) (fetch cfg w).2.
Proof.
  intros Hoff Hmode Hnever. split; [| split].
  - by apply noCommit_start.
  - by apply noCommit_scheduleFetch.
  - by apply noCommit_fetch.
Qed.

Lemma batch_mode_commits_on_request_only_witness :
  Forall (fun ev => isCommit ev = false) (start manualCommit 2 startAndFetch).2 /\
  Forall (fun ev => isCommit ev = false)
    (scheduleFetch manualCommit 2 startAndFetch).2 /\
  Forall (fun ev => isCommit ev = false) (fetch manualCommit startAndFetch).2.
Proof.
  apply (batch_mode_commits_on_request_only manualCommit 2 startAndFetch).
  - reflexivity.
  - reflexivity.
  - intros h b [= <-]. repeat constructor.
Defined.

Lemma fetch_ends_with_heartbeat_witness :
  exists pre,
    [EvFetch; EvEmit (FETCH 2); EvCommitOffsets None; EvHeartbeat 3000] =
      pre ++ [EvHeartbeat (heartbeatInterval liveConfig)].
Proof.
  apply (fetch_ends_with_heartbeat liveConfig nothingNew
           (mkWorld true true joinedGroup [])).
  vm_compute. reflexivity.
Defined.

(** ** The produce protocol table *)

Module ProduceFacts.

Import Produce.

Section Versions.

Variables Acks Timeout TopicData Compression Request Response : Type.
Variables request0 request1 : Acks -> Timeout -> TopicData -> Request.
Variable request2 : Acks -> Timeout -> Compression -> TopicData -> Request.
Variable request3 :
  option string -> Acks -> Timeout -> Compression -> TopicData -> Request.
Variables response0 response1 response2 response3 : Response.

Local Abbreviation lookup :=
  (protocol Acks Timeout TopicData Compression Request Response
     request0 request1 request2 request3
     response0 response1 response2 response3).

Lemma protocol_domain (v : Z) :
  is_Some (lookup v) <-> (v = 0 \/ v = 1 \/ v = 2 \/ v = 3)%Z.
Proof.
  assert (forall k : Z, String.eqb (pretty k) (pretty v) = true <-> k = v)
    as Heq.
  { intros k. rewrite String.eqb_eq. split; [apply (inj pretty) | by intros ->]. }
  unfold protocol, versions, property.
  change "0"%string with (pretty 0%Z). change "1"%string with (pretty 1%Z).
  change "2"%string with (pretty 2%Z). change "3"%string with (pretty 3%Z).
  destruct (String.eqb (pretty 0%Z) (pretty v)) eqn:H0;
    [apply Heq in H0; subst; split; [auto | by eexists] |].
  destruct (String.eqb (pretty 1%Z) (pretty v)) eqn:H1;
    [apply Heq in H1; subst; split; [auto | by eexists] |].
  destruct (String.eqb (pretty 2%Z) (pretty v)) eqn:H2;
    [apply Heq in H2; subst; split; [auto | by eexists] |].
  destruct (String.eqb (pretty 3%Z) (pretty v)) eqn:H3;
    [apply Heq in H3; subst; split; [auto | by eexists] |].
  split; [by intros [? ?] |].
  intros [-> | [-> | [-> | ->]]]; by rewrite String.eqb_refl in *.
Qed.

(** Property X15: [protocol({ version })] is defined exactly for the versions
    0 to 3, which are the versions that the module advertises in [versions],
    each once. *)
Theorem protocol_defined_iff (v : Z) :
  (is_Some (lookup v) <-> (0 <= v <= 3)%Z) /\
  (is_Some (lookup v) <->
   In (pretty v)
     (versionKeys Acks Timeout TopicData Compression Request Response
        request0 request1 request2 request3
        response0 response1 response2 response3)) /\
  NoDup (versionKeys Acks Timeout TopicData Compression Request Response
           request0 request1 request2 request3
           response0 response1 response2 response3).
Proof.
  split; [rewrite protocol_domain; lia |]. split.
  - rewrite protocol_domain. unfold versionKeys, versions. simpl.
    change "0"%string with (pretty 0%Z). change "1"%string with (pretty 1%Z).
    change "2"%string with (pretty 2%Z). change "3"%string with (pretty 3%Z).
    split.
    + intros [-> | [-> | [-> | ->]]]; auto.
    + intros [H | [H | [H | [H | []]]]]; apply (inj pretty) in H; auto.
  - unfold versionKeys, versions. simpl.
    apply (bool_decide_unpack _). vm_compute. reflexivity.
Qed.

(** Property X16: a version ignores the arguments that its request does not
    take: [compression] below version 2, and [transactionalId] below version
    3; version 3 takes an omitted [transactionalId] for [null]. *)
Theorem protocol_ignores_unsupported (v : Z) f a a' :
  lookup v = Some f ->
  acks a = acks a' -> timeout a = timeout a' -> topicData a = topicData a' ->
  ((v < 2)%Z \/ compression a = compression a') ->
  ((v < 3)%Z \/
   orNull (transactionalId a) = orNull (transactionalId a')) ->
  f a = f a'.
Proof.
  intros Hf Ha Ht Hd Hc Hi.
  assert (v = 0 \/ v = 1 \/ v = 2 \/ v = 3)%Z
    as [-> | [-> | [-> | ->]]] by (apply protocol_domain; by eexists);
    unfold protocol in Hf;
    [change (pretty 0%Z) with "0"%string in Hf
    |change (pretty 1%Z) with "1"%string in Hf
    |change (pretty 2%Z) with "2"%string in Hf
    |change (pretty 3%Z) with "3"%string in Hf];
    simpl in Hf; injection Hf as <-; rewrite Ha, Ht, Hd; try done.
  - destruct Hc as [? | ->]; [lia | done].
  - destruct Hc as [? | ->]; [lia |]. destruct Hi as [? | ->]; [lia | done].
Qed.

End Versions.

End ProduceFacts.

Lemma protocol_defined_iff_witness :
  (is_Some (sampleProtocol 2) <-> (0 <= 2 <= 3)%Z) /\
  (is_Some (sampleProtocol 2) <-> In "2"%string ["0"; "1"; "2"; "3"]%string) /\
  NoDup ["0"; "1"; "2"; "3"]%string.
Proof.
  apply (ProduceFacts.protocol_defined_iff Z Z (list string) nat
           (string * option (option string) * Z * Z * option nat * list string)
           string
           (fun a t d => ("v0"%string, None, a, t, None, d))
           (fun a t d => ("v1"%string, None, a, t, None, d))
           (fun a t c d => ("v2"%string, None, a, t, Some c, d))
           (fun i a t c d => ("v3"%string, Some i, a, t, Some c, d))
           "response v0"%string "response v1"%string "response v2"%string
           "response v3"%string 2%Z).
Defined.

Lemma protocol_ignores_unsupported_witness :
  exists f,
    sampleProtocol 1 = Some f /\
    f (Produce.mkArgs Produce.Omitted (-1)%Z 30000%Z 1 ["topic-test"%string]) =
    f (Produce.mkArgs (Produce.Given (Some "tx"%string)) (-1)%Z 30000%Z 0
         ["topic-test"%string]).
Proof.
  eexists. split; [reflexivity |].
  apply (ProduceFacts.protocol_ignores_unsupported Z Z (list string) nat
           (string * option (option string) * Z * Z * option nat * list string)
           string
           (fun a t d => ("v0"%string, None, a, t, None, d))
           (fun a t d => ("v1"%string, None, a, t, None, d))
           (fun a t c d => ("v2"%string, None, a, t, Some c, d))
           (fun i a t c d => ("v3"%string, Some i, a, t, Some c, d))
           "response v0"%string "response v1"%string "response v2"%string
           "response v3"%string 1%Z);
    [reflexivity | reflexivity | reflexivity | reflexivity | left; lia
    | left; lia].
Defined.

Lemma processEachMessage_in_order_witness :
  exists n n',
    List.filter isEachMessage
      (processEachMessage liveConfig failsAt11 threeMessages runningQuietly).2 =
      handlerCalls "topic-test" 0 (take n (messages threeMessages)) /\
    List.filter isResolveOffset
      (processEachMessage liveConfig failsAt11 threeMessages runningQuietly).2 =
      resolutions "topic-test" 0 (take n' (messages threeMessages)) /\
    n' <= n <= S n' /\
    Forall (fun m => h_error (failsAt11 "topic-test" 0%Z m) = None)
      (take n' (messages threeMessages)) /\
    (n = S n' ->
     exists m e,
       messages threeMessages !! n' = Some m /\
       h_error (failsAt11 "topic-test" 0%Z m) = Some e /\
       (processEachMessage liveConfig failsAt11 threeMessages
          runningQuietly).1.1 <> Val tt).
Proof.
  apply (processEachMessage_in_order liveConfig failsAt11 threeMessages
           runningQuietly).
Defined.

(** ** Starting and stopping in the middle *)

(** Property X12: when the [join] of [start] succeeds, [start] assigns
    [running] (which [join] has set already) and enters the fetch loop at
    once: [consuming] is set and the first fetch is issued, whatever another
    task did to [running] while [join] was awaited. *)
Theorem start_launches_loop cfg fuel w w1 t1 :
  running w = false ->
  join cfg w = (Val tt, w1, t1) ->
  running w1 = true /\
  start cfg fuel w =
    after (t1 ++ [EvRunning InStart true true; EvConsuming true; EvFetch])
      (scheduleFetch_resume cfg fuel (retries cfg) 0
         (set_consuming true (set_running true w1))).
Proof.
  intros Hr Hj.
  assert (running w1 = true) as Hr1 by by eapply retrier_join_returns.
  split; [done |].
  unfold start, bind at 1, get. rewrite Hr. simpl.
  unfold bind at 1, reify, bind at 1. rewrite Hj.
  unfold assign_running. rewrite Hr1. simpl.
  unfold scheduleFetch, bind at 1. rewrite scheduleFetch_enter_eq. simpl.
  unfold after. destruct (scheduleFetch_resume _ _ _ _ _) as [[r2 w2] t2].
  simpl. by rewrite <- !app_assoc.
Qed.

Lemma start_launches_loop_witness :
  running (mkWorld true false joinedGroup [delivered [twoMessages]]) = true /\
  start manualCommit 0 startAndFetch =
    after ([EvJoin; EvSync; EvRunning InJoin false true;
            EvEmit (GROUP_JOIN (Some "member-1"));
            EvLog Info "Consumer has joined the group"] ++
           [EvRunning InStart true true; EvConsuming true; EvFetch])
      (scheduleFetch_resume manualCommit 0 (retries manualCommit) 0
         (set_consuming true
            (set_running true
               (mkWorld true false joinedGroup [delivered [twoMessages]])))).
Proof.
  apply (start_launches_loop manualCommit 0 startAndFetch).
  - reflexivity.
  - vm_compute. reflexivity.
Defined.



(** ** After [stop] *)

Lemma stays_resumed b w : stays b w -> stays b (resumed w).
Proof. apply (stays_suspend b). Qed.

Lemma stays_afterPolls b n : forall w, stays b w -> stays b (afterPolls n w).
Proof.
  induction n as [|n IH]; intros w Hw; [done |]. simpl.
  by apply IH, stays_resumed.
Qed.

(** Property X17: while no other task assigns [running], [stop] leaves it
    false however it ends, and a [stop] that follows does nothing: it
    neither waits, nor tells the group to leave a second time. *)
Theorem stop_idempotent cfg fuel fuel' w :
  undisturbed (script w) ->
  running (stop cfg fuel w).1.2 = false /\
  stop cfg fuel' (stop cfg fuel w).1.2 = (Val tt, (stop cfg fuel w).1.2, []).
Proof.
  intros Hu.
  assert (running (stop cfg fuel w).1.2 = false) as Hr.
  { rewrite stop_eq. destruct (running w) eqn:Hrun; simpl; [| done].
    assert (stays false (set_running false w)) as Hst by done.
    destruct (isTestMode cfg); [apply (stays_resumed false _ Hst) |].
    destruct (firstQuiet fuel (set_running false w)) as [n|]; simpl.
    - by apply (stays_resumed false), stays_afterPolls.
    - by apply (stays_afterPolls false). }
  split; [done |]. by rewrite (stop_eq cfg fuel'), Hr.
Qed.

Lemma stop_idempotent_witness :
  running (stop testConfig 0 runningQuietly).1.2 = false /\
  stop testConfig 5 (stop testConfig 0 runningQuietly).1.2 =
    (Val tt, (stop testConfig 0 runningQuietly).1.2, []).
Proof.
  apply (stop_idempotent testConfig 0 5 runningQuietly). constructor.
Defined.

Lemma stays_commit_heartbeat cfg i :
  keeps (stays false) (autoCommitOffsets cfg ;; group_heartbeat i).
Proof.
  apply keeps_bind.
  - unfold autoCommitOffsets. destruct (autoCommit cfg); [| apply keeps_ret].
    apply keeps_bind; [apply keeps_rpc, stays_suspend |].
    intros _. apply stays_modify_group.
  - intros _. apply keeps_bind; [apply keeps_rpc, stays_suspend |].
    intros _. apply keeps_ret.
Qed.

Lemma shutdown_commit_heartbeat cfg i :
  emits (fun ev => shutdownEvent ev = true)
    (autoCommitOffsets cfg ;; group_heartbeat i).
Proof.
  unfold autoCommitOffsets, group_commitOffsets, group_heartbeat.
  emits_go ltac:(by simpl).
Qed.

Lemma commit_heartbeat_settles cfg i w :
  ((autoCommitOffsets cfg ;; group_heartbeat i) w).1.1 <> Pending.
Proof.
  unfold autoCommitOffsets, bind at 1.
  destruct (autoCommit cfg).
  - rewrite group_commitOffsets_eq.
    destruct (r_failure (received w)); [done |].
    rewrite group_heartbeat_eq. by destruct (r_failure (received _)).
  - simpl. rewrite group_heartbeat_eq. by destruct (r_failure (received _)).
Qed.

(** Property X18: once [running] is false and stays so, the fetch loop ends
    with the attempt in flight.  The batches that the fetch brings are not
    taken up: no handler is called and no batch event emitted; the cycle
    only emits FETCH and makes its closing commit and heartbeat.  The loop
    then exits without re-joining, without a retry and without calling the
    crash handler, whether the cycle failed or not. *)
Theorem loop_exits_after_stop cfg fuel budget retryCount w :
  stays false w ->
  (scheduleFetch_resume cfg (S fuel) budget retryCount w).1.1 = Val tt /\
  Forall (fun ev => shutdownEvent ev = true)
    (scheduleFetch_resume cfg (S fuel) budget retryCount w).2.
Proof.
  intros Hst.
  assert (exists r w1 t1,
            fetch_resume cfg w = (r, w1, t1) /\ r <> Pending /\
            stays false w1 /\ Forall (fun ev => shutdownEvent ev = true) t1)
    as (r & w1 & t1 & Hf & Hp & Hst1 & Ht1).
  { unfold fetch_resume, bind at 1. rewrite group_fetch_answer_eq.
    pose proof (stays_resumed false w Hst) as Hres.
    destruct (r_failure (received w)) as [e|].
    { exists (Exn e), (resumed w), [].
      split; [done |]. split; [done |]. split; [exact Hres | constructor]. }
    unfold bind at 1, log. unfold bind at 1.
    assert (stays false (fetched w)) as Hfe by done.
    rewrite awaitAll_skips; [| left; apply Hfe].
    pose proof (stays_commit_heartbeat cfg (heartbeatInterval cfg) _ Hfe) as Hk.
    pose proof (shutdown_commit_heartbeat cfg (heartbeatInterval cfg)
                  (fetched w)) as He.
    pose proof (commit_heartbeat_settles cfg (heartbeatInterval cfg)
                  (fetched w)) as Hs.
    destruct (bind (autoCommitOffsets cfg) _ (fetched w)) as [[r2 w2] t2].
    simpl in *. exists r2, w2, (EvEmit (FETCH (length (r_batches (received w)))) :: t2).
    repeat split; [done | apply Hk | apply Hk |]. by constructor. }
  destruct (cycle_resume cfg w) as [[r' w'] t'] eqn:Hc.
  rewrite (scheduleFetch_resume_step _ _ _ _ _ _ _ _ Hc).
  rewrite cycle_resume_eq, Hf in Hc.
  destruct Hst1 as [Hr1 Hu1].
  destruct r as [[]|e|]; [| | done].
  - injection Hc as <- <- <-. rewrite afterAttempt_eq.
    assert (stays false (set_consuming false (set_consuming false w1)))
      as Hst2 by done.
    destruct (stays_resumed false _ Hst2) as [-> _]. simpl.
    split; [done |]. rewrite <- app_assoc. apply Forall_app. split; [done |].
    by repeat constructor.
  - rewrite onFetchError_eq, Hr1 in Hc. simpl in Hc. unfold after in Hc.
    injection Hc as <- <- <-. rewrite afterAttempt_eq. simpl.
    split; [done |]. rewrite <- app_assoc. apply Forall_app. split; [done |].
    by repeat constructor.
Qed.

Lemma loop_exits_after_stop_witness :
  (scheduleFetch_resume liveConfig 1 5 0 stoppedDuringFetch).1.1 = Val tt /\
  Forall (fun ev => shutdownEvent ev = true)
    (scheduleFetch_resume liveConfig 1 5 0 stoppedDuringFetch).2.
Proof.
  apply (loop_exits_after_stop liveConfig 0 5 0 stoppedDuringFetch).
  split; [reflexivity | repeat constructor].
Defined.
